(** * pixeltron: the pixelation command-line tool (cli.py)

    A shallow embedding of [pixelate_image] and [main] from [cli.py],
    together with the parts of the Python runtime and of the imaging
    library that decide their behaviour:

    - Python's true division of integers and [int()] on the resulting
      float (lines 32, 35 and 38 divide with [/] and truncate with
      [int]);
    - [os.path.splitext] (line 50);
    - exceptions with their implicit [__context__] chain (line 23
      raises inside an [except] block);
    - the image codec ([Image.open], [Image.resize], [Image.save]) as
      an interface, with nearest-neighbour resampling written out. *)

From Stdlib Require Import ZArith Lia String Ascii List Bool.
From stdpp Require Import base option list strings gmap.

Open Scope Z_scope.

Set Warnings "-register-all".

(** ** Python exceptions *)

(** An exception instance: its class, its message ([str(e)]) and the
    exception that was being handled when it was raised
    ([__context__], set implicitly by a [raise] inside an [except]
    block). *)
Inductive PyExn : Type :=
| Exn (cls : string) (msg : string) (context : option PyExn).


Definition str_exn (e : PyExn) : string :=
  match e with Exn _ m _ => m end.

Definition exn_context (e : PyExn) : option PyExn :=
  match e with Exn _ _ c => c end.

(** The outcome of evaluating a Python expression or call: a value, or
    a raised exception. *)
Inductive result (A : Type) : Type :=
| Ok (a : A)
| Raise (e : PyExn).
Arguments Ok {A} a.
Arguments Raise {A} e.

Definition result_bind {A B} (r : result A) (k : A -> result B) : result B :=
  match r with
  | Ok a => k a
  | Raise e => Raise e
  end.

Definition result_map {A B} (f : A -> B) (r : result A) : result B :=
  result_bind r (fun a => Ok (f a)).

(** ** True division of integers and [int()] of a float

    [a / b] on two Python [int]s is the IEEE-754 binary64 number
    nearest to the exact quotient (ties to even), [ZeroDivisionError]
    when [b = 0] and [OverflowError] when the rounded quotient does not
    fit a float.  A finite float is kept as [mant * 2 ^ expo] with
    [|mant| <= 2 ^ 53]. *)

Module Float.

Record t : Type := mk { mant : Z; expo : Z }.

(** [2 ^ e] for [e >= 0] and [1] otherwise, so that the quotient
    [n / (d * 2 ^ e)] can be written [(n * pow2 (- e)) / (d * pow2 e)]
    for an exponent of either sign. *)
Definition pow2 (e : Z) : Z := 2 ^ Z.max 0 e.

(** [floor (log2 (n / d))] for [n, d > 0]. *)
Definition floor_log2_ratio (n d : Z) : Z :=
  let k := Z.log2 n - Z.log2 d in
  if d * pow2 k <=? n * pow2 (- k) then k else k - 1.

(** [num / den] rounded to the nearest integer, ties to even. *)
Definition round_half_even (num den : Z) : Z :=
  let q := num / den in
  let r := num mod den in
  if 2 * r <? den then q
  else if den <? 2 * r then q + 1
  else if Z.even q then q else q + 1.

(** The exponent of the unit in the last place of a quotient: 53
    significant bits, and no exponent below that of the subnormals. *)
Definition ulp_exponent (n d : Z) : Z :=
  Z.max (floor_log2_ratio n d - 52) (-1074).

Definition truediv (a b : Z) : result t :=
  if b =? 0 then Raise (Exn "ZeroDivisionError" "division by zero" None)
  else if a =? 0 then Ok (mk 0 0)
  else
    let n := Z.abs a in
    let d := Z.abs b in
    let e := ulp_exponent n d in
    let m := round_half_even (n * pow2 (- e)) (d * pow2 e) in
    if 2 ^ 1024 <=? m * pow2 e
    then Raise (Exn "OverflowError"
                    "integer division result too large for a float" None)
    else Ok (mk (Z.sgn a * Z.sgn b * m) e).

(** [int(x)]: truncation toward zero. *)
Definition to_int (x : t) : Z :=
  if 0 <=? expo x then mant x * 2 ^ expo x
  else Z.quot (mant x) (2 ^ (- expo x)).

End Float.

(** [int(a / b)] as lines 32, 35 and 38 compute it. *)
Definition int_truediv (a b : Z) : result Z :=
  result_map Float.to_int (Float.truediv a b).

(** ** Grid resolution (lines 29-38)

    [width] and [height] are [None] or an [int]; the result is the
    pair of locals [(width, height)] after the [if]/[elif] chain. *)
Definition resolve_dimensions (orig_width orig_height : Z)
    (width height : option Z) : result (Z * Z) :=
  match width, height with
  | None, None =>
      let width := 32 in
      result_bind (int_truediv (orig_height * width) orig_width) (fun height =>
      Ok (width, height))
  | None, Some height =>
      result_bind (int_truediv (orig_width * height) orig_height) (fun width =>
      Ok (width, height))
  | Some width, None =>
      result_bind (int_truediv (orig_height * width) orig_width) (fun height =>
      Ok (width, height))
  | Some width, Some height => Ok (width, height)
  end.

(** ** Strings and [os.path.splitext] (line 50)

    A Python [str] is a [string]; [s[:k]], [s[k:]] and [s[i:j]] are
    written for non-negative indices, the only ones [splitext] uses. *)

Fixpoint str_take (n : nat) (s : string) : string :=
  match n, s with
  | S n', String a r => String a (str_take n' r)
  | _, _ => EmptyString
  end.

Fixpoint str_drop (n : nat) (s : string) : string :=
  match n, s with
  | S n', String _ r => str_drop n' r
  | _, _ => s
  end.

Definition slice_to (s : string) (k : Z) : string := str_take (Z.to_nat k) s.
Definition slice_from (s : string) (k : Z) : string := str_drop (Z.to_nat k) s.
Definition slice (s : string) (i j : Z) : string :=
  str_take (Z.to_nat (j - i)) (str_drop (Z.to_nat i) s).

(** [s.rfind(c)]: the highest index at which [c] occurs, [-1] if none. *)
Fixpoint rfind (c : ascii) (s : string) : Z :=
  match s with
  | EmptyString => -1
  | String a r =>
      let i := rfind c r in
      if 0 <=? i then i + 1
      else if Ascii.eqb a c then 0 else -1
  end.

Definition sep : ascii := "/"%char.
Definition extsep : ascii := "."%char.

(** The [while] loop of [genericpath._splitext]: it walks over the
    dots that open the last component and returns at the first other
    character; [None] when the loop runs to its end.  [fuel] counts
    the iterations left, at most [dotIndex - filenameIndex]. *)
Fixpoint splitext_loop (fuel : nat) (p : string) (filenameIndex dotIndex : Z)
  : option (string * string) :=
  match fuel with
  | O => None
  | S fuel' =>
      if filenameIndex <? dotIndex then
        if negb (String.eqb (slice p filenameIndex (filenameIndex + 1))
                            (String extsep EmptyString))
        then Some (slice_to p dotIndex, slice_from p dotIndex)
        else splitext_loop fuel' p (filenameIndex + 1) dotIndex
      else None
  end.

(** [os.path.splitext] on a POSIX path ([sep = '/'], no [altsep]). *)
Definition splitext (p : string) : string * string :=
  let sepIndex := rfind sep p in
  let dotIndex := rfind extsep p in
  if sepIndex <? dotIndex then
    let filenameIndex := sepIndex + 1 in
    match splitext_loop (Z.to_nat (dotIndex - filenameIndex)) p
                        filenameIndex dotIndex with
    | Some r => r
    | None => (p, EmptyString)
    end
  else (p, EmptyString).

(** Lines 50-51: the output path when none is given. *)
Definition default_output_path (input_path : string) : string :=
  let '(base_name, extension) := splitext input_path in
  base_name +:+ "_pixelated" +:+ extension.

(** *** The split described in words

    [rsplit c s] cuts [s] at the last [c]: what precedes it and what
    follows it. *)
Fixpoint rsplit (c : ascii) (s : string) : option (string * string) :=
  match s with
  | EmptyString => None
  | String a r =>
      match rsplit c r with
      | Some (pre, post) => Some (String a pre, post)
      | None => if Ascii.eqb a c then Some (EmptyString, r) else None
      end
  end.

(** The path up to and including its last ['/'], and the final path
    segment after it. *)
Definition split_final_segment (p : string) : string * string :=
  match rsplit sep p with
  | Some (dir, seg) => (dir +:+ String sep EmptyString, seg)
  | None => (EmptyString, p)
  end.

Fixpoint all_dots (s : string) : bool :=
  match s with
  | EmptyString => true
  | String a r => Ascii.eqb a extsep && all_dots r
  end.

(** The split as the specification words it: the extension starts at
    the last ['.'] of the final path segment and is empty if the
    segment has no ['.']. *)
Definition claimed_splitext (p : string) : string * string :=
  let '(dir, seg) := split_final_segment p in
  match rsplit extsep seg with
  | Some (stem, e) => (dir +:+ stem, String extsep e)
  | None => (p, EmptyString)
  end.

Definition claimed_output_path (input_path : string) : string :=
  let '(base, extension) := claimed_splitext input_path in
  base +:+ "_pixelated" +:+ extension.

(** The same split with the dots that open the segment left in the
    base: a last ['.'] preceded only by dots (or by nothing) starts no
    extension. *)
Definition leading_dots_splitext (p : string) : string * string :=
  let '(dir, seg) := split_final_segment p in
  match rsplit extsep seg with
  | Some (stem, e) =>
      if all_dots stem then (p, EmptyString)
      else (dir +:+ stem, String extsep e)
  | None => (p, EmptyString)
  end.


(** ** Images and nearest-neighbour resampling

    An image is its size and its pixel buffer, one list per row.
    [Image.size] is the pair [(im_width, im_height)]. *)

Definition Pixel : Type := Z * Z * Z.

Record Image : Type := mkImage {
  im_width : Z;
  im_height : Z;
  im_rows : list (list Pixel)
}.

Definition size (im : Image) : Z * Z := (im_width im, im_height im).

(** The buffer has [im_height] rows of [im_width] pixels, and neither
    is zero: what a decoder hands out. *)
Definition valid_image (im : Image) : bool :=
  (0 <? im_width im) && (0 <? im_height im)
  && (Z.of_nat (length (im_rows im)) =? im_height im)
  && forallb (fun row => Z.of_nat (length row) =? im_width im) (im_rows im).

(** [im.getpixel((x, y))] inside the image, [None] outside. *)
Definition pixel_at (im : Image) (x y : Z) : option Pixel :=
  if (0 <=? x) && (x <? im_width im) && (0 <=? y) && (y <? im_height im)
  then row ← im_rows im !! Z.to_nat y; row !! Z.to_nat x
  else None.

Definition black : Pixel := (0, 0, 0).

Definition sample (im : Image) (x y : Z) : Pixel :=
  default black (pixel_at im x y).

(** [range(n)] *)
Definition Zrange (n : Z) : list Z := Z.of_nat <$> seq 0 (Z.to_nat n).

(** The source index nearest to output index [i]: the source pixel
    that contains the centre [i + 1/2] of the output pixel, scaled by
    [in_len / out_len]. *)
Definition nearest (out_len in_len i : Z) : Z :=
  ((2 * i + 1) * in_len) / (2 * out_len).

Definition resize_nearest (im : Image) (w h : Z) : Image :=
  {| im_width := w;
     im_height := h;
     im_rows :=
       (fun y => (fun x => sample im (nearest w (im_width im) x)
                                     (nearest h (im_height im) y))
                 <$> Zrange w)
       <$> Zrange h |}.

(** Modelled from the spec: [Image.resize(size, Image.NEAREST)] of the
    imaging library, which is not part of the repository.  The spec
    asks for nearest-neighbour sampling with no interpolation; the
    library returns a copy when the size does not change and refuses a
    size below one pixel.  Memory limits are not modelled. *)
Definition resize (im : Image) (new_size : Z * Z) : result Image :=
  let '(w, h) := new_size in
  if (im_width im =? w) && (im_height im =? h) then Ok im
  else if (w <? 1) || (h <? 1)
  then Raise (Exn "ValueError" "height and width must be > 0" None)
  else Ok (resize_nearest im w h).

(** ** The codec and the world

    [Image.open] and [Image.save] belong to the imaging library; they
    are kept as an interface over a file system [FS].  [Image_open]
    stands for opening and decoding together, and hands out valid
    images only. *)
Class Codec : Type := {
  FS : Type;
  Image_open : string -> FS -> result Image;
  Image_save : Image -> string -> FS -> result unit * FS;
  Image_open_valid : forall p fs im,
    Image_open p fs = Ok im -> valid_image im = true
}.

(** What a run can change: the files, and the lines the program
    itself has printed. *)
Record World `{Codec} : Type := mkWorld {
  files : FS;
  printed : list string
}.

(** ** Statements with effects: a state and exception monad *)

Definition Py `{Codec} (A : Type) : Type := World -> result A * World.

Definition ret `{Codec} {A} (a : A) : Py A := fun w => (Ok a, w).

Definition raise `{Codec} {A} (e : PyExn) : Py A := fun w => (Raise e, w).

Definition bind `{Codec} {A B} (m : Py A) (k : A -> Py B) : Py B :=
  fun w =>
    match m w with
    | (Ok a, w') => k a w'
    | (Raise e, w') => (Raise e, w')
    end.

(** A pure expression that may raise. *)
Definition lift `{Codec} {A} (r : result A) : Py A := fun w => (r, w).

(** [try: m  except Exception as e: handler e] *)
Definition try_except `{Codec} {A} (m : Py A) (handler : PyExn -> Py A) : Py A :=
  fun w =>
    match m w with
    | (Ok a, w') => (Ok a, w')
    | (Raise e, w') => handler e w'
    end.

Notation "'do' x <- m ; k" := (bind m (fun x => k))
  (at level 10, x name, m at level 100, k at level 200, only parsing).
Notation "'do' ' p <- m ; k" := (bind m (fun x => match x with p => k end))
  (at level 10, p pattern, m at level 100, k at level 200, only parsing).

Definition open_image `{Codec} (path : string) : Py Image :=
  fun w => (Image_open path (files w), w).

Definition save_image `{Codec} (im : Image) (path : string) : Py unit :=
  fun w =>
    let '(r, fs') := Image_save im path (files w) in
    (r, {| files := fs'; printed := printed w |}).

Definition print `{Codec} (line : string) : Py unit :=
  fun w => (Ok tt, {| files := files w; printed := printed w ++ [line] |}).

(** ** [pixelate_image] (lines 5-56) *)

Definition pixelate_image `{Codec} (input_path : string)
    (output_path : option string) (width height : option Z)
    (pixels_per_pixel : Z) : Py string :=
  do img <- try_except (open_image input_path)
              (fun e => raise (Exn "ValueError"
                                 ("Could not open image " +:+ input_path
                                    +:+ ": " +:+ str_exn e)
                                 (Some e))) ;
  let '(orig_width, orig_height) := size img in
  do '(width, height) <- lift (resolve_dimensions orig_width orig_height
                                 width height) ;
  do small_img <- lift (resize img (width, height)) ;
  let final_width := width * pixels_per_pixel in
  let final_height := height * pixels_per_pixel in
  do pixelated_img <- lift (resize small_img (final_width, final_height)) ;
  let output_path :=
    match output_path with
    | None => default_output_path input_path
    | Some given => given
    end in
  do _ <- save_image pixelated_img output_path ;
  ret output_path.

(** ** The command line (lines 58-86) *)

(** The namespace [parser.parse_args()] returns: one attribute per
    [add_argument] call of lines 61-66. *)
Module args.
Record t : Type := mk {
  input_path : string;
  output : option string;
  width : option Z;
  height : option Z;
  pixels_per_pixel : Z
}.
End args.

(** [parse_args] returns a namespace, or leaves through [parser.exit]
    and [parser.error], which raise [SystemExit]: status 0 after
    [-h]/[--help], status 2 after a usage error. *)
Inductive parse_result : Type :=
| Namespace (a : args.t)
| ParserExit (status : Z).

Inductive option_flag : Type := OptOutput | OptWidth | OptHeight | OptPixels.

Definition flag_of (token : string) : option option_flag :=
  if String.eqb token "-o" || String.eqb token "--output" then Some OptOutput
  else if String.eqb token "-w" || String.eqb token "--width" then Some OptWidth
  else if String.eqb token "-ht" || String.eqb token "--height" then Some OptHeight
  else if String.eqb token "-p" || String.eqb token "--pixels-per-pixel"
       then Some OptPixels
  else None.

Definition is_help (token : string) : bool :=
  String.eqb token "-h" || String.eqb token "--help".

(** A token that does not start with ['-'] is an argument, never an
    option string. *)
Definition plain (token : string) : bool :=
  match token with
  | String c _ => negb (Ascii.eqb c "-")
  | EmptyString => true
  end.

Definition digit_value (c : ascii) : option Z :=
  let n := Z.of_nat (nat_of_ascii c) in
  if (48 <=? n) && (n <=? 57) then Some (n - 48) else None.

Fixpoint decimal (acc : Z) (s : string) : option Z :=
  match s with
  | EmptyString => Some acc
  | String c r =>
      match digit_value c with
      | Some d => decimal (10 * acc + d) r
      | None => None
      end
  end.

(** [int(token)] on a non-empty run of ASCII digits short enough for
    every interpreter; other spellings are left out. *)
Definition int_of_digits (token : string) : option Z :=
  match token with
  | EmptyString => None
  | _ => if (String.length token <=? 4300)%nat then decimal 0 token else None
  end.

Record partial_args : Type := mkPartial {
  p_output : option string;
  p_width : option Z;
  p_height : option Z;
  p_pixels : Z
}.

(** The parser of lines 60-68 on the command lines made of the exact
    option strings, each followed by its value, and of plain
    arguments.  [None] marks a command line outside this fragment
    (abbreviated options, [--opt=value], [--], negative numbers, other
    spellings of integers). *)
Fixpoint parse_tokens (argv : list string) (acc : partial_args)
    (positionals : list string) : option parse_result :=
  match argv with
  | [] =>
      match positionals with
      | [path] =>
          Some (Namespace (args.mk path (p_output acc) (p_width acc)
                             (p_height acc) (p_pixels acc)))
      | _ => Some (ParserExit 2)
      end
  | token :: rest =>
      if is_help token then Some (ParserExit 0)
      else
        match flag_of token with
        | Some flag =>
            match rest with
            | [] => Some (ParserExit 2)
            | value :: rest' =>
                if plain value then
                  match flag with
                  | OptOutput =>
                      parse_tokens rest'
                        (mkPartial (Some value) (p_width acc) (p_height acc)
                           (p_pixels acc)) positionals
                  | OptWidth =>
                      n ← int_of_digits value;
                      parse_tokens rest'
                        (mkPartial (p_output acc) (Some n) (p_height acc)
                           (p_pixels acc)) positionals
                  | OptHeight =>
                      n ← int_of_digits value;
                      parse_tokens rest'
                        (mkPartial (p_output acc) (p_width acc) (Some n)
                           (p_pixels acc)) positionals
                  | OptPixels =>
                      n ← int_of_digits value;
                      parse_tokens rest'
                        (mkPartial (p_output acc) (p_width acc) (p_height acc)
                           n) positionals
                  end
                else if is_help value || bool_decide (is_Some (flag_of value))
                then Some (ParserExit 2)
                else None
            end
        | None =>
            if plain token then parse_tokens rest acc (positionals ++ [token])
            else None
        end
  end.

Definition parse_args (argv : list string) : option parse_result :=
  parse_tokens argv (mkPartial None None None 1) [].

(** How [main] ends: it returns a status, or [SystemExit] passes
    through it from [parse_args]; an exception no handler caught is
    kept for completeness. *)
Inductive outcome : Type :=
| Return (status : Z)
| SystemExit (status : Z)
| Uncaught (e : PyExn).

(** Lines 70-83: the [try] statement and the two [return]s. *)
Definition run_pixelate `{Codec} (a : args.t) : Py Z :=
  do early <- try_except
       (do output_path <- pixelate_image (args.input_path a) (args.output a)
                            (args.width a) (args.height a)
                            (args.pixels_per_pixel a) ;
        do _ <- print ("Pixelated image saved to: " +:+ output_path) ;
        ret None)
       (fun e =>
        do _ <- print ("Error: " +:+ str_exn e) ;
        ret (Some 1)) ;
  match early with
  | Some status => ret status
  | None => ret 0
  end.

Definition main_parsed `{Codec} (parsed : parse_result) (w : World)
  : outcome * World :=
  match parsed with
  | ParserExit status => (SystemExit status, w)
  | Namespace a =>
      match run_pixelate a w with
      | (Ok status, w') => (Return status, w')
      | (Raise e, w') => (Uncaught e, w')
      end
  end.

(** [main()] on a command line of the modelled fragment. *)
Definition main `{Codec} (argv : list string) (w : World)
  : option (outcome * World) :=
  parsed ← parse_args argv; Some (main_parsed parsed w).

(** Line 86, [exit(main())]: the status the process ends with. *)
Definition exit_status (o : outcome) : Z :=
  match o with
  | Return status => status
  | SystemExit status => status
  | Uncaught _ => 1
  end.

(** ** An in-memory codec

    Files are decoded images kept by path.  Opening fails on a missing
    path and on a file that holds no valid image; saving fails on an
    extension the codec has no encoder for. *)
Definition known_extensions : list string :=
  [".png"; ".jpg"; ".jpeg"; ".bmp"; ".gif"].

Definition mem_open (path : string) (fs : gmap string Image) : result Image :=
  match fs !! path with
  | None =>
      Raise (Exn "FileNotFoundError"
               ("[Errno 2] No such file or directory: '" +:+ path +:+ "'")
               None)
  | Some im =>
      if valid_image im then Ok im
      else Raise (Exn "UnidentifiedImageError"
                    ("cannot identify image file '" +:+ path +:+ "'") None)
  end.

Definition mem_save (im : Image) (path : string) (fs : gmap string Image)
  : result unit * gmap string Image :=
  let extension := (splitext path).2 in
  if bool_decide (extension ∈ known_extensions)
  then (Ok (), <[path := im]> fs)
  else (Raise (Exn "ValueError" ("unknown file extension: " +:+ extension) None),
        fs).

Definition mem_open_valid path fs im :
  mem_open path fs = Ok im -> valid_image im = true.
Proof.
  unfold mem_open. destruct (fs !! path) as [im' |]; [| discriminate].
  destruct (valid_image im') eqn:E; [| discriminate].
  now intros [= <-].
Qed.

Definition MemCodec : Codec :=
  {| FS := gmap string Image;
     Image_open := mem_open;
     Image_save := mem_save;
     Image_open_valid := mem_open_valid |}.

(** A [w] by [h] image of a single colour. *)
Definition solid (w h : Z) (colour : Pixel) : Image :=
  mkImage w h (replicate (Z.to_nat h) (replicate (Z.to_nat w) colour)).

(** ** Statements of the specification, in its own words *)

(** The grid as the specification resolves it, every division an
    integer division. *)
Definition truncated_resolution (W0 H0 : Z) (width height : option Z) : Z * Z :=
  match width, height with
  | None, None => (32, H0 * 32 / W0)
  | None, Some th => (W0 * th / H0, th)
  | Some tw, None => (tw, H0 * tw / W0)
  | Some tw, Some th => (tw, th)
  end.

(** The product that [resolve_dimensions] divides, if it divides. *)
Definition dividend (W0 H0 : Z) (width height : option Z) : Z :=
  match width, height with
  | None, None => H0 * 32
  | None, Some th => W0 * th
  | Some tw, None => H0 * tw
  | Some _, Some _ => 0
  end.

Definition positive_if_given (o : option Z) : Prop :=
  match o with
  | Some n => 0 < n
  | None => True
  end.

(** Line 54 and line 56: the run ends by handing [final] to the codec
    for [path] and returns [path] if the codec wrote it. *)
Definition saved `{Codec} (final : Image) (path : string) (w : World)
  : result string * World :=
  let '(r, fs') := Image_save final path (files w) in
  (result_map (fun _ => path) r, {| files := fs'; printed := printed w |}).

(** The path line 54 writes to. *)
Definition resolved_output_path (input_path : string)
    (output_path : option string) : string :=
  match output_path with
  | None => default_output_path input_path
  | Some given => given
  end.

(** A world for running the model: one file, a 200 by 100 red image,
    and nothing printed yet. *)
Definition red : Pixel := (255, 0, 0).

Definition demo_world : @World MemCodec :=
  @mkWorld MemCodec {[ "red.png" := solid 200 100 red ]} [].

(** A second world, to run the same path against other files. *)
Definition other_world : @World MemCodec :=
  @mkWorld MemCodec {[ "red.png" := solid 64 48 black ]} ["an earlier line"].

(** Every position of the image holds the colour [c]. *)
Definition is_solid (im : Image) (c : Pixel) : Prop :=
  forall x y, 0 <= x < im_width im -> 0 <= y < im_height im ->
    pixel_at im x y = Some c.

(** What the codec says when asked for a size below one pixel. *)
Definition size_error : PyExn :=
  Exn "ValueError" "height and width must be > 0" None.

(** Every pixel of the buffer is [c]. *)
Definition all_pixels (im : Image) (c : Pixel) : bool :=
  forallb (forallb (fun p => bool_decide (p = c))) (im_rows im).
Example resolve_100x50_w20 :
  resolve_dimensions 100 50 (Some 20) None = Ok (20, 10).
Proof. vm_compute. reflexivity. Qed.


(** ** Facts about the float model *)

Section FloatFacts.
Import Float.

Lemma pow2_pos e : 0 < pow2 e.
Proof. unfold pow2. apply Z.pow_pos_nonneg; lia. Qed.

Lemma pow2_of_nonneg e : 0 <= e -> pow2 e = 2 ^ e.
Proof. intros He. unfold pow2. now rewrite Z.max_r. Qed.

Lemma pow2_of_nonpos e : e <= 0 -> pow2 e = 1.
Proof. intros He. unfold pow2. now rewrite Z.max_l. Qed.

(** [2 ^ (x + y) = 2 ^ x * 2 ^ y] for exponents of either sign, with
    the negative powers moved to the other side. *)
Lemma pow2_add x y :
  pow2 (x + y) * (pow2 (- x) * pow2 (- y))
  = pow2 (- (x + y)) * (pow2 x * pow2 y).
Proof.
  unfold pow2.
  destruct (Z.max_spec 0 (x + y)) as [[? ->] | [? ->]];
  destruct (Z.max_spec 0 (- (x + y))) as [[? ->] | [? ->]];
  destruct (Z.max_spec 0 x) as [[? ->] | [? ->]];
  destruct (Z.max_spec 0 (- x)) as [[? ->] | [? ->]];
  destruct (Z.max_spec 0 y) as [[? ->] | [? ->]];
  destruct (Z.max_spec 0 (- y)) as [[? ->] | [? ->]];
  try lia;
  rewrite <- ?Z.pow_add_r by lia; f_equal; lia.
Qed.

(** Moving the binary point by [j] places. *)
Lemma pow2_shift f j :
  0 <= j ->
  pow2 f * pow2 (j - f) = 2 ^ j * (pow2 (f - j) * pow2 (- f)).
Proof.
  intros Hj.
  pose proof (pow2_add (f - j) j) as H.
  replace (f - j + j) with f in H by lia.
  replace (- (f - j)) with (j - f) in H by lia.
  rewrite (pow2_of_nonpos (- j)), (pow2_of_nonneg j) in H by lia.
  lia.
Qed.

(** A larger exponent gives a smaller scaled quotient. *)
Lemma pow2_ratio_mono e0 e :
  e0 <= e -> pow2 (- e) * pow2 e0 <= pow2 (- e0) * pow2 e.
Proof.
  intros Hle.
  pose proof (pow2_add e0 (e - e0)) as H.
  replace (e0 + (e - e0)) with e in H by lia.
  rewrite (pow2_of_nonpos (- (e - e0))) in H by lia.
  pose proof (pow2_pos e) as He. pose proof (pow2_pos (- e)) as Hne.
  pose proof (pow2_pos e0) as He0. pose proof (pow2_pos (- e0)) as Hne0.
  assert (H1 : 1 <= pow2 (e - e0)) by (pose proof (pow2_pos (e - e0)); lia).
  (* divide [H] by the common factor, case by case on the signs *)
  destruct (Z.le_gt_cases 0 e0) as [Hp | Hn].
  - rewrite (pow2_of_nonpos (- e0)), (pow2_of_nonpos (- e)) by lia.
    rewrite !pow2_of_nonneg by lia.
    rewrite Z.mul_1_l, Z.mul_1_l. apply Z.pow_le_mono_r; lia.
  - rewrite (pow2_of_nonpos e0) by lia.
    destruct (Z.le_gt_cases 0 e) as [Hpe | Hne'].
    + rewrite (pow2_of_nonpos (- e)) by lia.
      pose proof (pow2_pos (- e0)). nia.
    + rewrite (pow2_of_nonpos e) by lia.
      rewrite !pow2_of_nonneg by lia.
      rewrite !Z.mul_1_r. apply Z.pow_le_mono_r; lia.
Qed.

Lemma floor_log2_ratio_lower n d :
  0 < n -> 0 < d ->
  d * pow2 (floor_log2_ratio n d) <= n * pow2 (- floor_log2_ratio n d).
Proof.
  intros Hn Hd. unfold floor_log2_ratio.
  set (k := Z.log2 n - Z.log2 d).
  destruct (Z.leb_spec (d * pow2 k) (n * pow2 (- k))) as [Hle | Hgt]; [exact Hle |].
  pose proof (Z.log2_spec n Hn) as [Hn1 _].
  pose proof (Z.log2_spec d Hd) as [_ Hd2].
  pose proof (Z.log2_nonneg n). pose proof (Z.log2_nonneg d).
  destruct (Z.le_gt_cases 1 k) as [Hk | Hk].
  - rewrite (pow2_of_nonneg (k - 1)), (pow2_of_nonpos (- (k - 1))) by lia.
    rewrite Z.mul_1_r.
    apply Z.le_trans with (2 ^ Z.log2 n); [| exact Hn1].
    replace (Z.log2 n) with (Z.succ (Z.log2 d) + (k - 1)) by (unfold k; lia).
    rewrite Z.pow_add_r by lia.
    apply Z.mul_le_mono_nonneg_r; [apply Z.pow_nonneg |]; lia.
  - rewrite (pow2_of_nonpos (k - 1)), (pow2_of_nonneg (- (k - 1))) by lia.
    rewrite Z.mul_1_r.
    apply Z.le_trans with (2 ^ Z.succ (Z.log2 d)); [lia |].
    replace (Z.succ (Z.log2 d)) with (Z.log2 n + - (k - 1)) by (unfold k; lia).
    rewrite Z.pow_add_r by lia.
    apply Z.mul_le_mono_nonneg_r; [apply Z.pow_nonneg |]; lia.
Qed.

Lemma floor_log2_ratio_upper n d :
  0 < n -> 0 < d ->
  n * pow2 (- floor_log2_ratio n d) < 2 * (d * pow2 (floor_log2_ratio n d)).
Proof.
  intros Hn Hd. unfold floor_log2_ratio.
  set (k := Z.log2 n - Z.log2 d).
  pose proof (Z.log2_spec n Hn) as [_ Hn2].
  pose proof (Z.log2_spec d Hd) as [Hd1 _].
  pose proof (Z.log2_nonneg n). pose proof (Z.log2_nonneg d).
  destruct (Z.leb_spec (d * pow2 k) (n * pow2 (- k))) as [Hle | Hgt].
  - destruct (Z.le_gt_cases 0 k) as [Hk | Hk].
    + rewrite (pow2_of_nonneg k), (pow2_of_nonpos (- k)) by lia.
      rewrite Z.mul_1_r.
      apply Z.lt_le_trans with (2 ^ Z.succ (Z.log2 n)); [exact Hn2 |].
      replace (Z.succ (Z.log2 n)) with (1 + (Z.log2 d + k)) by (unfold k; lia).
      rewrite !Z.pow_add_r by lia. change (2 ^ 1) with 2.
      assert (0 < 2 ^ k) by (apply Z.pow_pos_nonneg; lia). nia.
    + rewrite (pow2_of_nonpos k), (pow2_of_nonneg (- k)) by lia.
      rewrite Z.mul_1_r.
      apply Z.lt_le_trans with (2 ^ Z.succ (Z.log2 n) * 2 ^ (- k)).
      * apply Z.mul_lt_mono_pos_r; [apply Z.pow_pos_nonneg; lia | exact Hn2].
      * rewrite <- Z.pow_add_r by lia.
        replace (Z.succ (Z.log2 n) + - k) with (1 + Z.log2 d) by (unfold k; lia).
        rewrite Z.pow_add_r by lia. change (2 ^ 1) with 2. lia.
  - destruct (Z.le_gt_cases 1 k) as [Hk | Hk].
    + rewrite (pow2_of_nonpos (- k)) in Hgt by lia.
      rewrite (pow2_of_nonpos (- (k - 1))) by lia.
      rewrite (pow2_of_nonneg k) in Hgt by lia.
      rewrite (pow2_of_nonneg (k - 1)) by lia.
      replace k with (1 + (k - 1)) in Hgt at 1 by lia.
      rewrite Z.pow_add_r in Hgt by lia. change (2 ^ 1) with 2 in Hgt. lia.
    + rewrite (pow2_of_nonpos k) in Hgt by lia.
      rewrite (pow2_of_nonpos (k - 1)) by lia.
      rewrite (pow2_of_nonneg (- k)) in Hgt by lia.
      rewrite (pow2_of_nonneg (- (k - 1))) by lia.
      replace (- (k - 1)) with (1 + - k) by lia.
      rewrite Z.pow_add_r by lia. change (2 ^ 1) with 2. lia.
Qed.

(** The scaled quotient [n / (d * 2 ^ e)] at [e = floor_log2_ratio n d - 52]
    lies in [[2 ^ 52, 2 ^ 53)]: the mantissa has 53 bits. *)
Lemma scaled_quotient_lower n d :
  0 < n -> 0 < d ->
  let e := floor_log2_ratio n d - 52 in
  2 ^ 52 * (d * pow2 e) <= n * pow2 (- e).
Proof.
  intros Hn Hd e.
  pose proof (floor_log2_ratio_lower n d Hn Hd) as L.
  pose proof (pow2_shift (floor_log2_ratio n d) 52 ltac:(lia)) as S.
  replace (- e) with (52 - floor_log2_ratio n d) by (unfold e; lia).
  fold e in S.
  pose proof (pow2_pos (- floor_log2_ratio n d)) as HB.
  pose proof (pow2_pos (52 - floor_log2_ratio n d)) as HD.
  apply Z.mul_le_mono_pos_r with (p := pow2 (- floor_log2_ratio n d)); [exact HB |].
  generalize dependent (pow2 (- floor_log2_ratio n d)).
  generalize dependent (pow2 (52 - floor_log2_ratio n d)).
  generalize (pow2 (floor_log2_ratio n d)) (pow2 e) (2 ^ 52).
  intros A C K D HD B L S HB. nia.
Qed.

Lemma scaled_quotient_upper n d e :
  0 < n -> 0 < d ->
  floor_log2_ratio n d - 52 <= e ->
  n * pow2 (- e) < 2 ^ 53 * (d * pow2 e).
Proof.
  intros Hn Hd He.
  set (e0 := floor_log2_ratio n d - 52) in *.
  assert (U0 : n * pow2 (- e0) < 2 ^ 53 * (d * pow2 e0)).
  { pose proof (floor_log2_ratio_upper n d Hn Hd) as U.
    pose proof (pow2_shift (floor_log2_ratio n d) 52 ltac:(lia)) as S.
    replace (- e0) with (52 - floor_log2_ratio n d) by (unfold e0; lia).
    fold e0 in S.
    change (2 ^ 53) with (2 * 2 ^ 52).
    pose proof (pow2_pos (- floor_log2_ratio n d)) as HB.
    pose proof (pow2_pos (52 - floor_log2_ratio n d)) as HD.
    apply Z.mul_lt_mono_pos_r with (p := pow2 (- floor_log2_ratio n d)); [exact HB |].
    generalize dependent (pow2 (- floor_log2_ratio n d)).
    generalize dependent (pow2 (52 - floor_log2_ratio n d)).
    generalize (pow2 (floor_log2_ratio n d)) (pow2 e0) (2 ^ 52).
    intros A C K D HD B U S HB. nia. }
  pose proof (pow2_ratio_mono e0 e He) as M.
  pose proof (pow2_pos e0) as P0. pose proof (pow2_pos e) as P1.
  pose proof (pow2_pos (- e0)) as P2. pose proof (pow2_pos (- e)) as P3.
  apply Z.mul_lt_mono_pos_r with (p := pow2 e0); [exact P0 |].
  generalize dependent (pow2 e0). generalize dependent (pow2 e).
  generalize dependent (pow2 (- e0)). generalize dependent (pow2 (- e)).
  generalize (2 ^ 53). intros K B' B U0' P2' P3' A' A0 ? ? ?. nia.
Qed.

Lemma round_half_even_range num den :
  0 < den ->
  num / den <= round_half_even num den <= num / den + 1.
Proof.
  intros Hden. unfold round_half_even.
  repeat match goal with |- context [if ?b then _ else _] => destruct b end; lia.
Qed.

(** Rounding up needs a remainder of at least half the divisor. *)
Lemma round_half_even_up num den :
  0 < den ->
  round_half_even num den = num / den + 1 -> den <= 2 * (num mod den).
Proof.
  intros Hden. unfold round_half_even.
  destruct (Z.ltb_spec (2 * (num mod den)) den); [lia |].
  intros _. lia.
Qed.

(** Scaling by [P], rounding to nearest and truncating gives the
    floor of the quotient as long as the dividend has at most 53
    bits: the rounded mantissa never reaches the next integer. *)
Lemma trunc_round_small n d P :
  0 < d -> 0 <= n < 2 ^ 53 -> 1 <= P ->
  2 ^ 52 * d <= n * P \/ 2 ^ 53 <= P ->
  round_half_even (n * P) d / P = n / d.
Proof.
  intros Hd [Hn0 Hn] HP Hnorm.
  pose proof (Z.div_mod n d ltac:(lia)) as En.
  pose proof (Z.mod_pos_bound n d Hd) as Rn.
  pose proof (Z.div_mod (n * P) d ltac:(lia)) as Em.
  pose proof (Z.mod_pos_bound (n * P) d Hd) as Rm.
  pose proof (round_half_even_range (n * P) d Hd) as Hr.
  pose proof (round_half_even_up (n * P) d Hd) as Hup.
  assert (Hk0 : 0 <= n / d) by (apply Z.div_pos; lia).
  assert (Hlo : n / d * P <= n * P / d).
  { apply Z.div_le_lower_bound; [exact Hd | nia]. }
  assert (Hhi : n * P / d < (n / d + 1) * P).
  { apply Z.div_lt_upper_bound; [exact Hd | nia]. }
  symmetry. apply Z.div_unique with (r := round_half_even (n * P) d - n / d * P);
    [| lia].
  left. split; [lia |].
  destruct (Z.eq_dec (round_half_even (n * P) d) (n * P / d + 1)) as [Heq | Hne];
    [| lia].
  specialize (Hup Heq).
  destruct (Z.eq_dec (n * P / d + 1) ((n / d + 1) * P)) as [Htop | Hlt]; [| lia].
  exfalso.
  revert En Rn Em Rm Hup Htop Hk0 Hnorm Hn.
  generalize (n / d) (n mod d) (n * P / d) ((n * P) mod d).
  change (2 ^ 53) with (2 * 2 ^ 52). generalize (2 ^ 52).
  intros k r0 m0 r K En Rn Em Rm Hup Htop Hk0 Hnorm Hn.
  assert (Ht : 2 * P * (d - r0) <= d) by nia.
  destruct Hnorm as [Hnorm | Hbig].
  - assert (K * (2 * P * (d - r0)) <= n * P) by nia.
    assert (2 * K * P <= n * P) by nia.
    nia.
  - assert (Hdn : n < d) by nia.
    assert (k = 0) by nia. subst k.
    assert (r0 = n) by lia. subst r0.
    assert ((2 * P - 1) * d <= 2 * P * n) by nia.
    assert ((2 * P - 1) * (2 * P) <= (2 * P - 1) * d) by nia.
    nia.
Qed.

(** Below [2 ^ 53] the float detour is invisible: [int(a / b)] is the
    integer quotient. *)
Lemma int_truediv_small a b :
  0 <= a < 2 ^ 53 -> 0 < b -> int_truediv a b = Ok (a / b).
Proof.
  intros [Ha0 Ha] Hb. unfold int_truediv, truediv.
  destruct (Z.eqb_spec b 0) as [-> | _]; [lia |].
  destruct (Z.eqb_spec a 0) as [-> | Hnz].
  { cbn. now rewrite Z.div_0_l by lia. }
  assert (Hpos : 0 < a) by lia.
  rewrite (Z.abs_eq a), (Z.abs_eq b) by lia.
  rewrite (Z.sgn_pos a), (Z.sgn_pos b) by lia. cbv zeta.
  pose proof (scaled_quotient_upper a b (ulp_exponent a b) Hpos Hb
                ltac:(unfold ulp_exponent; lia)) as Hup.
  pose proof (scaled_quotient_lower a b Hpos Hb) as Hlow. cbv zeta in Hlow.
  assert (He : ulp_exponent a b = floor_log2_ratio a b - 52
               \/ ulp_exponent a b = -1074)
    by (unfold ulp_exponent; lia).
  assert (Hclip : -1074 <= ulp_exponent a b) by (unfold ulp_exponent; lia).
  set (e := ulp_exponent a b) in *.
  destruct (Z.le_gt_cases 0 e) as [Hge | Hlt].
  - (* a quotient of at least [2 ^ 52]: [b = 1] and the float is exact *)
    assert (Ee : e = floor_log2_ratio a b - 52) by lia.
    rewrite <- Ee in Hlow.
    rewrite (pow2_of_nonpos (- e)) in * by lia.
    pose proof (pow2_pos e) as Hp.
    assert (Hb1 : b * pow2 e = 1) by nia.
    assert (b = 1 /\ pow2 e = 1) as [-> Hp1] by nia.
    rewrite Hp1. change (1 * 1) with 1.
    assert (Hm : round_half_even (a * 1) 1 = a).
    { unfold round_half_even. rewrite Z.mul_1_r, Z.div_1_r, Z.mod_1_r. reflexivity. }
    rewrite Hm, Z.mul_1_r.
    destruct (Z.leb_spec (2 ^ 1024) a) as [Hov | _]; [lia |].
    cbn [result_map result_bind]. unfold to_int. cbn [expo mant].
    destruct (Z.leb_spec 0 e) as [_ | ?]; [| lia].
    rewrite pow2_of_nonneg in Hp1 by lia. rewrite Hp1.
    now rewrite Z.mul_1_l, Z.mul_1_r, Z.div_1_r.
  - (* a negative exponent: the mantissa is [a * 2 ^ (- e) / b] rounded *)
    rewrite (pow2_of_nonpos e), (pow2_of_nonneg (- e)) in Hup by lia.
    rewrite (pow2_of_nonpos e), (pow2_of_nonneg (- e)) by lia.
    rewrite Z.mul_1_r in Hup. rewrite !Z.mul_1_r.
    assert (HP : 2 <= 2 ^ (- e)).
    { change 2 with (2 ^ 1) at 1. apply Z.pow_le_mono_r; lia. }
    pose proof (round_half_even_range (a * 2 ^ (- e)) b Hb) as Hr.
    assert (Hm0 : a * 2 ^ (- e) / b < 2 ^ 53).
    { apply Z.div_lt_upper_bound; lia. }
    assert (Hm0' : 0 <= a * 2 ^ (- e) / b) by (apply Z.div_pos; nia).
    destruct (Z.leb_spec (2 ^ 1024) (round_half_even (a * 2 ^ (- e)) b))
      as [Hov | _]; [lia |].
    cbn [result_map result_bind]. unfold to_int. cbn [expo mant].
    destruct (Z.leb_spec 0 e) as [? | _]; [lia |].
    rewrite Z.mul_1_l, Z.quot_div_nonneg by lia.
    f_equal. apply trunc_round_small; try lia.
    destruct He as [Ee | Ee].
    + left. rewrite <- Ee in Hlow.
      rewrite (pow2_of_nonpos e), (pow2_of_nonneg (- e)) in Hlow by lia. lia.
    + right. rewrite Ee. change (- -1074) with 1074.
      apply Z.pow_le_mono_r; lia.
Qed.

End FloatFacts.

Example default_photo_jpg : default_output_path "photo.jpg" = "photo_pixelated.jpg".
Proof. reflexivity. Qed.

Example default_photo : default_output_path "photo" = "photo_pixelated".
Proof. reflexivity. Qed.

Example default_dotfile : default_output_path "pics/.hidden" = "pics/.hidden_pixelated".
Proof. reflexivity. Qed.

Example default_dotted_dir : default_output_path "my.pics/cat" = "my.pics/cat_pixelated".
Proof. reflexivity. Qed.

Example default_two_dots : default_output_path "a/..tar.gz" = "a/..tar_pixelated.gz".
Proof. reflexivity. Qed.

Section StringFacts.

Lemma append_nil_l t : EmptyString +:+ t = t.
Proof. reflexivity. Qed.

Lemma append_cons a s t : String a s +:+ t = String a (s +:+ t).
Proof. reflexivity. Qed.

Lemma append_nil_r s : s +:+ EmptyString = s.
Proof.
  induction s as [| a s IH]; [reflexivity |]. now rewrite append_cons, IH.
Qed.

Lemma append_assoc s t u : (s +:+ t) +:+ u = s +:+ (t +:+ u).
Proof.
  induction s as [| a s IH]; [reflexivity |]. now rewrite !append_cons, IH.
Qed.

Lemma length_append s t :
  String.length (s +:+ t) = (String.length s + String.length t)%nat.
Proof.
  induction s as [| a s IH]; [reflexivity |].
  rewrite append_cons. cbn [String.length]. now rewrite IH.
Qed.

Lemma str_take_append s t : str_take (String.length s) (s +:+ t) = s.
Proof.
  induction s as [| a s IH]; [now destruct t |].
  rewrite append_cons. cbn [String.length str_take]. now rewrite IH.
Qed.

Lemma str_drop_append s t : str_drop (String.length s) (s +:+ t) = t.
Proof.
  induction s as [| a s IH]; [reflexivity |].
  rewrite append_cons. cbn [String.length str_drop]. exact IH.
Qed.

Lemma rfind_bounds c s : -1 <= rfind c s < Z.of_nat (String.length s).
Proof.
  induction s as [| a s IH]; cbn [rfind String.length]; [lia |].
  destruct (Z.leb_spec 0 (rfind c s)); [lia |].
  destruct (Ascii.eqb a c); lia.
Qed.

Lemma rfind_append c s t :
  rfind c (s +:+ t) =
  if 0 <=? rfind c t then Z.of_nat (String.length s) + rfind c t
  else rfind c s.
Proof.
  induction s as [| a s IH].
  - rewrite append_nil_l. cbn [rfind String.length].
    destruct (Z.leb_spec 0 (rfind c t)); [lia |].
    pose proof (rfind_bounds c t). lia.
  - rewrite append_cons. cbn [rfind String.length]. rewrite IH.
    destruct (Z.leb_spec 0 (rfind c t)) as [Ht | Ht].
    + destruct (Z.leb_spec 0 (Z.of_nat (String.length s) + rfind c t)); lia.
    + reflexivity.
Qed.

Lemma rsplit_None c s : rsplit c s = None -> rfind c s = -1.
Proof.
  induction s as [| a s IH]; [reflexivity |]. cbn [rsplit rfind].
  destruct (rsplit c s) as [[? ?] |]; [discriminate |].
  destruct (Ascii.eqb_spec a c); [discriminate |]. intros _.
  rewrite (IH eq_refl). reflexivity.
Qed.

Lemma rsplit_Some c s pre post :
  rsplit c s = Some (pre, post) ->
  s = pre +:+ String c post /\ rfind c post = -1
  /\ rfind c s = Z.of_nat (String.length pre).
Proof.
  revert pre. induction s as [| a s IH]; intros pre H; cbn [rsplit] in H;
    [discriminate |].
  destruct (rsplit c s) as [[pre' post'] |] eqn:E.
  - injection H as <- <-.
    destruct (IH pre' eq_refl) as (Hs & Hpost & Hlen).
    rewrite append_cons. cbn [rfind String.length]. rewrite Hlen, <- Hs.
    destruct (Z.leb_spec 0 (Z.of_nat (String.length pre'))); [| lia].
    repeat split; [assumption | lia].
  - destruct (Ascii.eqb_spec a c) as [-> | Hne]; [| discriminate].
    injection H as <- <-.
    rewrite append_nil_l. cbn [rfind String.length].
    rewrite (rsplit_None c s E). cbn. rewrite Ascii.eqb_refl. auto.
Qed.

(** The loop finds a character other than ['.'] in [stem] exactly
    when [stem] is not made of dots only. *)
Lemma splitext_loop_stem stem : forall x y,
  splitext_loop (String.length stem) (x +:+ (stem +:+ y))
    (Z.of_nat (String.length x))
    (Z.of_nat (String.length x) + Z.of_nat (String.length stem))
  = if all_dots stem then None
    else Some (slice_to (x +:+ (stem +:+ y))
                 (Z.of_nat (String.length x) + Z.of_nat (String.length stem)),
               slice_from (x +:+ (stem +:+ y))
                 (Z.of_nat (String.length x) + Z.of_nat (String.length stem))).
Proof.
  induction stem as [| a stem IH]; intros x y; [reflexivity |].
  cbn [String.length splitext_loop all_dots].
  destruct (Z.ltb_spec (Z.of_nat (String.length x))
              (Z.of_nat (String.length x) + Z.of_nat (S (String.length stem))));
    [| lia].
  assert (Hc : slice (x +:+ (String a stem +:+ y)) (Z.of_nat (String.length x))
                 (Z.of_nat (String.length x) + 1) = String a EmptyString).
  { unfold slice. rewrite Nat2Z.id, str_drop_append.
    replace (Z.to_nat (Z.of_nat (String.length x) + 1 - Z.of_nat (String.length x)))
      with 1%nat by lia.
    rewrite append_cons. cbn [str_take]. now destruct (stem +:+ y). }
  rewrite Hc. cbn [String.eqb].
  destruct (Ascii.eqb_spec a extsep) as [-> | Hne]; cbn [negb andb].
  - specialize (IH (x +:+ String extsep EmptyString) y).
    rewrite length_append in IH. cbn [String.length] in IH.
    rewrite append_assoc, append_cons, append_nil_l in IH.
    replace (Z.of_nat (String.length x + 1)) with (Z.of_nat (String.length x) + 1)
      in IH by lia.
    replace (Z.of_nat (String.length x) + 1 + Z.of_nat (String.length stem))
      with (Z.of_nat (String.length x) + Z.of_nat (S (String.length stem)))
      in IH by lia.
    rewrite append_cons. exact IH.
  - reflexivity.
Qed.

End StringFacts.

(** ** [splitext] against the split described in words *)

Section SplitextFacts.

(** [splitext] on a path cut after its last separator: [D] is empty or
    ends with the last ['/'], [seg] is the final segment. *)
Lemma splitext_at D seg :
  rfind sep (D +:+ seg) = Z.of_nat (String.length D) - 1 ->
  splitext (D +:+ seg) =
  match rsplit extsep seg with
  | Some (stem, e) =>
      if all_dots stem then (D +:+ seg, EmptyString)
      else (D +:+ stem, String extsep e)
  | None => (D +:+ seg, EmptyString)
  end.
Proof.
  intros Hsep. unfold splitext. rewrite Hsep, (rfind_append extsep D seg).
  destruct (rsplit extsep seg) as [[stem e] |] eqn:E.
  - destruct (rsplit_Some _ _ _ _ E) as (Hseg & _ & Hdot).
    rewrite Hdot.
    destruct (Z.leb_spec 0 (Z.of_nat (String.length stem))); [| lia].
    destruct (Z.ltb_spec (Z.of_nat (String.length D) - 1)
                (Z.of_nat (String.length D) + Z.of_nat (String.length stem)));
      [| lia].
    replace (Z.to_nat (Z.of_nat (String.length D)
                       + Z.of_nat (String.length stem)
                       - (Z.of_nat (String.length D) - 1 + 1)))
      with (String.length stem) by lia.
    replace (Z.of_nat (String.length D) - 1 + 1)
      with (Z.of_nat (String.length D)) by lia.
    rewrite Hseg, splitext_loop_stem.
    destruct (all_dots stem); [reflexivity |].
    unfold slice_to, slice_from.
    rewrite <- Nat2Z.inj_add, Nat2Z.id, <- length_append, <- append_assoc.
    now rewrite str_take_append, str_drop_append.
  - rewrite (rsplit_None _ _ E). cbn [Z.leb Z.compare].
    pose proof (rfind_bounds extsep D).
    destruct (Z.ltb_spec (Z.of_nat (String.length D) - 1) (rfind extsep D));
      [lia | reflexivity].
Qed.

(** [os.path.splitext] is the split at the last ['.'] of the final
    segment, leading dots excepted. *)
Lemma splitext_leading_dots p : splitext p = leading_dots_splitext p.
Proof.
  unfold leading_dots_splitext, split_final_segment.
  destruct (rsplit sep p) as [[dir seg] |] eqn:E.
  - destruct (rsplit_Some _ _ _ _ E) as (Hp & _ & Hsep).
    assert (Hp' : p = (dir +:+ String sep EmptyString) +:+ seg).
    { now rewrite append_assoc, append_cons, append_nil_l. }
    rewrite Hp' at 1. rewrite splitext_at.
    + rewrite <- Hp'. reflexivity.
    + rewrite <- Hp', Hsep, length_append. cbn [String.length]. lia.
  - change p with (EmptyString +:+ p) at 1. rewrite splitext_at.
    + reflexivity.
    + rewrite append_nil_l, (rsplit_None _ _ E). reflexivity.
Qed.

End SplitextFacts.

(** ** Resampling *)

Section ResizeFacts.

Lemma Zrange_lookup n i : 0 <= i < n -> Zrange n !! Z.to_nat i = Some i.
Proof.
  intros Hi. unfold Zrange. rewrite list_lookup_fmap, lookup_seq_lt by lia.
  cbn. f_equal. lia.
Qed.

Lemma length_Zrange n : length (Zrange n) = Z.to_nat n.
Proof. unfold Zrange. now rewrite length_fmap, length_seq. Qed.

Lemma pixel_at_resize_nearest im w h x y :
  0 <= x < w -> 0 <= y < h ->
  pixel_at (resize_nearest im w h) x y
  = Some (sample im (nearest w (im_width im) x) (nearest h (im_height im) y)).
Proof.
  intros Hx Hy. unfold pixel_at, resize_nearest. cbn [im_width im_height im_rows].
  destruct (Z.leb_spec 0 x); [| lia]. destruct (Z.ltb_spec x w); [| lia].
  destruct (Z.leb_spec 0 y); [| lia]. destruct (Z.ltb_spec y h); [| lia].
  cbn [andb].
  rewrite list_lookup_fmap, (Zrange_lookup h y Hy). cbn.
  rewrite list_lookup_fmap, (Zrange_lookup w x Hx). reflexivity.
Qed.

Lemma valid_resize_nearest im w h :
  0 < w -> 0 < h -> valid_image (resize_nearest im w h) = true.
Proof.
  intros Hw Hh. unfold valid_image, resize_nearest.
  cbn [im_width im_height im_rows].
  rewrite length_fmap, length_Zrange.
  destruct (Z.ltb_spec 0 w); [| lia]. destruct (Z.ltb_spec 0 h); [| lia].
  rewrite Z2Nat.id, Z.eqb_refl by lia. cbn [andb].
  apply forallb_forall. intros row Hrow.
  apply in_map_iff in Hrow as (y & <- & _).
  rewrite length_fmap, length_Zrange, Z2Nat.id by lia. apply Z.eqb_refl.
Qed.

(** Inside a valid image every position holds a pixel. *)
Lemma pixel_at_valid im x y :
  valid_image im = true ->
  0 <= x < im_width im -> 0 <= y < im_height im ->
  pixel_at im x y = Some (sample im x y).
Proof.
  intros Hv Hx Hy. unfold sample.
  enough (is_Some (pixel_at im x y)) as [c ->] by reflexivity.
  unfold valid_image in Hv.
  apply andb_prop in Hv as [Hv Hrows]. apply andb_prop in Hv as [_ Hlen].
  apply Z.eqb_eq in Hlen.
  unfold pixel_at.
  destruct (Z.leb_spec 0 x); [| lia].
  destruct (Z.ltb_spec x (im_width im)); [| lia].
  destruct (Z.leb_spec 0 y); [| lia].
  destruct (Z.ltb_spec y (im_height im)); [| lia].
  cbn [andb].
  destruct (lookup_lt_is_Some_2 (im_rows im) (Z.to_nat y) ltac:(lia)) as [row Hrow].
  rewrite Hrow. cbn.
  apply lookup_lt_is_Some_2.
  rewrite forallb_forall in Hrows.
  specialize (Hrows row (proj1 (list_elem_of_In _ _)
                           (list_elem_of_lookup_2 _ _ _ Hrow))).
  apply Z.eqb_eq in Hrows. lia.
Qed.

(** Enlarging [n] samples to [n * k]: output index [x] reads sample
    [x / k]. *)
Lemma nearest_upscale n k x :
  0 < n -> 0 < k -> 0 <= x -> nearest (n * k) n x = x / k.
Proof.
  intros Hn Hk Hx. unfold nearest.
  replace (2 * (n * k)) with (2 * k * n) by lia.
  rewrite Z.div_mul_cancel_r by lia.
  pose proof (Z.div_mod x k ltac:(lia)) as E.
  pose proof (Z.mod_pos_bound x k Hk) as B.
  symmetry. apply Z.div_unique with (r := 2 * (x mod k) + 1); lia.
Qed.

Lemma nearest_same n x : 0 < n -> 0 <= x -> nearest n n x = x.
Proof.
  intros Hn Hx. pose proof (nearest_upscale n 1 x Hn ltac:(lia) Hx) as E.
  now rewrite Z.mul_1_r, Z.div_1_r in E.
Qed.

(** On a valid image and a size of at least one pixel each way,
    [resize] returns a valid image of that size whose pixels are the
    nearest samples. *)
Lemma resize_ok im w h :
  valid_image im = true -> 0 < w -> 0 < h ->
  exists out,
    resize im (w, h) = Ok out /\ valid_image out = true
    /\ size out = (w, h)
    /\ forall x y, 0 <= x < w -> 0 <= y < h ->
         pixel_at out x y
         = Some (sample im (nearest w (im_width im) x)
                           (nearest h (im_height im) y)).
Proof.
  intros Hv Hw Hh. unfold resize.
  destruct ((im_width im =? w) && (im_height im =? h)) eqn:Esame.
  - apply andb_prop in Esame as [Ew Eh].
    apply Z.eqb_eq in Ew, Eh. exists im.
    repeat split; [assumption | unfold size; congruence |].
    intros x y Hx Hy. rewrite Ew, Eh, !nearest_same by lia.
    apply pixel_at_valid; [assumption | lia | lia].
  - destruct (Z.ltb_spec w 1); [lia |]. destruct (Z.ltb_spec h 1); [lia |].
    cbn [orb]. exists (resize_nearest im w h).
    repeat split; [now apply valid_resize_nearest |].
    intros x y Hx Hy. now apply pixel_at_resize_nearest.
Qed.

(** Whatever [resize] returns has the size asked for. *)
Lemma resize_size im new_size out :
  resize im new_size = Ok out -> size out = new_size.
Proof.
  destruct new_size as [w h]. unfold resize.
  destruct ((im_width im =? w) && (im_height im =? h)) eqn:Esame.
  - apply andb_prop in Esame as [Ew Eh]. apply Z.eqb_eq in Ew, Eh.
    intros [= <-]. unfold size. congruence.
  - destruct ((w <? 1) || (h <? 1)); [discriminate |]. now intros [= <-].
Qed.

End ResizeFacts.

(** ** Runs of [pixelate_image] *)

Section Runs.
Context `{Codec}.

(** A run whose input does not open stops at line 23. *)
Lemma run_load_error input_path output_path width height pixels_per_pixel w e :
  Image_open input_path (files w) = Raise e ->
  pixelate_image input_path output_path width height pixels_per_pixel w
  = (Raise (Exn "ValueError"
              ("Could not open image " +:+ input_path +:+ ": " +:+ str_exn e)
              (Some e)), w).
Proof.
  intros Hopen. unfold pixelate_image, bind, try_except, open_image, raise.
  now rewrite Hopen.
Qed.

(** A run whose input opens: the three pure steps, then the save. *)
Lemma run_opened input_path output_path width height pixels_per_pixel w img :
  Image_open input_path (files w) = Ok img ->
  pixelate_image input_path output_path width height pixels_per_pixel w
  = match resolve_dimensions (im_width img) (im_height img) width height with
    | Raise e => (Raise e, w)
    | Ok (tw, th) =>
        match resize img (tw, th) with
        | Raise e => (Raise e, w)
        | Ok small_img =>
            match resize small_img
                    (tw * pixels_per_pixel, th * pixels_per_pixel) with
            | Raise e => (Raise e, w)
            | Ok pixelated_img =>
                saved pixelated_img
                  (resolved_output_path input_path output_path) w
            end
        end
    end.
Proof.
  intros Hopen.
  unfold pixelate_image, bind, try_except, open_image, lift, ret, save_image,
    saved, resolved_output_path.
  rewrite Hopen. cbn [size].
  destruct (resolve_dimensions _ _ width height) as [[tw th] | e]; [| reflexivity].
  destruct (resize img (tw, th)) as [small_img | e]; [| reflexivity].
  destruct (resize small_img _) as [pixelated_img | e]; [| reflexivity].
  destruct (Image_save _ _ _) as [[[] | e] fs']; reflexivity.
Qed.

(** A run with a grid of at least one cell each way reaches the save,
    with the enlarged image. *)
Lemma run_reaches_save input_path output_path width height k w img tw th :
  Image_open input_path (files w) = Ok img ->
  resolve_dimensions (im_width img) (im_height img) width height = Ok (tw, th) ->
  0 < tw -> 0 < th -> 0 < k ->
  exists small_img pixelated_img,
    resize img (tw, th) = Ok small_img
    /\ valid_image small_img = true /\ size small_img = (tw, th)
    /\ resize small_img (tw * k, th * k) = Ok pixelated_img
    /\ valid_image pixelated_img = true
    /\ pixelate_image input_path output_path width height k w
       = saved pixelated_img (resolved_output_path input_path output_path) w.
Proof.
  intros Hopen Hres Htw Hth Hk.
  pose proof (Image_open_valid _ _ _ Hopen) as Hv.
  destruct (resize_ok img tw th Hv Htw Hth) as (small & Hsmall & Hvs & Hsz & _).
  destruct (resize_ok small (tw * k) (th * k) Hvs ltac:(lia) ltac:(lia))
    as (final & Hfinal & Hvf & _ & _).
  exists small, final. repeat split; try assumption.
  rewrite (run_opened _ _ _ _ _ _ _ Hopen), Hres, Hsmall, Hfinal. reflexivity.
Qed.

(** The value a run returns is the path it wrote to. *)
Lemma run_returns_path input_path output_path width height k w p w' :
  pixelate_image input_path output_path width height k w = (Ok p, w') ->
  p = resolved_output_path input_path output_path.
Proof.
  destruct (Image_open input_path (files w)) as [img | e] eqn:Hopen.
  - rewrite (run_opened _ _ _ _ _ _ _ Hopen).
    destruct (resolve_dimensions _ _ _ _) as [[tw th] | ?]; [| discriminate].
    destruct (resize img _) as [small | ?]; [| discriminate].
    destruct (resize small _) as [final | ?]; [| discriminate].
    unfold saved. destruct (Image_save _ _ _) as [[[] | ?] fs']; cbn;
      [| discriminate].
    now intros [= <- _].
  - rewrite (run_load_error _ _ _ _ _ _ _ Hopen). discriminate.
Qed.

End Runs.

(** ** The grid (lines 29-38) *)

(** C1, as amended: for an image of positive size [W0] by [H0] and
    target arguments that are positive when given, the grid is
    resolved by truncating integer division (both absent: 32 and
    [H0 * 32 / W0]; width absent: [W0 * th / H0]; height absent:
    [H0 * tw / W0]; both given: as they are) whenever the product
    that is divided is below [2 ^ 53].  The code divides in floating
    point and truncates the float. *)
Theorem resolve_dimensions_truncates W0 H0 width height :
  0 < W0 -> 0 < H0 ->
  positive_if_given width -> positive_if_given height ->
  dividend W0 H0 width height < 2 ^ 53 ->
  resolve_dimensions W0 H0 width height
  = Ok (truncated_resolution W0 H0 width height).
Proof.
  intros HW HH Hw Hh Hbound.
  destruct width as [tw |], height as [th |];
    cbn [resolve_dimensions truncated_resolution dividend positive_if_given] in *.
  - reflexivity.
  - rewrite int_truediv_small by lia. reflexivity.
  - rewrite int_truediv_small by lia. reflexivity.
  - rewrite int_truediv_small by lia. reflexivity.
Qed.

Lemma resolve_dimensions_truncates_witness :
  resolve_dimensions 100 50 (Some 20) None
  = Ok (truncated_resolution 100 50 (Some 20) None).
Proof.
  apply (resolve_dimensions_truncates 100 50 (Some 20) None);
    cbn [positive_if_given dividend]; lia.
Defined.

(** C1 as stated fails on large arguments: a 3 by 1 image with target
    width [3 * 2 ^ 53 - 1] resolves the height to [2 ^ 53], one more
    than the integer quotient, because the float nearest to the exact
    quotient is the next integer. *)
Lemma resolve_dimensions_rounds_up :
  resolve_dimensions 3 1 (Some 27021597764222975) None
  = Ok (27021597764222975, 9007199254740992)
  /\ truncated_resolution 3 1 (Some 27021597764222975) None
     = (27021597764222975, 9007199254740991)
  /\ resolve_dimensions 3 1 (Some 27021597764222975) None
     <> Ok (truncated_resolution 3 1 (Some 27021597764222975) None).
Proof.
  split; [vm_compute; reflexivity |].
  split; [vm_compute; reflexivity |].
  vm_compute. discriminate.
Qed.

(** ** The default output path (lines 49-51) *)

(** C4, as amended: the default output path is
    [base + "_pixelated" + extension], where the extension starts at
    the last ['.'] of the final path segment if a character other
    than ['.'] precedes that dot in the segment, and is empty
    otherwise; ["photo.jpg"] gives ["photo_pixelated.jpg"] and
    ["photo"] gives ["photo_pixelated"]. *)
Theorem default_output_path_spec :
  (forall input_path,
     default_output_path input_path
     = let '(base, extension) := leading_dots_splitext input_path in
       base +:+ "_pixelated" +:+ extension)
  /\ default_output_path "photo.jpg" = "photo_pixelated.jpg"
  /\ default_output_path "photo" = "photo_pixelated".
Proof.
  split; [| split; reflexivity].
  intros input_path. unfold default_output_path.
  now rewrite splitext_leading_dots.
Qed.

(** C4 as stated fails on a name that starts with a dot: for
    [".hidden"] the claim takes [".hidden"] for the extension and
    gives ["_pixelated.hidden"], the code gives [".hidden_pixelated"]. *)
Lemma default_output_path_dotfile :
  default_output_path ".hidden" = ".hidden_pixelated"
  /\ claimed_output_path ".hidden" = "_pixelated.hidden"
  /\ default_output_path ".hidden" <> claimed_output_path ".hidden".
Proof.
  split; [vm_compute; reflexivity |].
  split; [vm_compute; reflexivity |].
  vm_compute. discriminate.
Qed.

(** ** The output image (lines 41-46) *)

Section Output.
Context `{Codec}.

(** [resize] succeeds on a valid image only for a size of at least
    one pixel each way. *)
Lemma resize_Ok_positive im w h out :
  valid_image im = true -> resize im (w, h) = Ok out -> 0 < w /\ 0 < h.
Proof.
  intros Hv. unfold resize.
  destruct ((im_width im =? w) && (im_height im =? h)) eqn:Esame.
  - apply andb_prop in Esame as [Ew Eh]. apply Z.eqb_eq in Ew, Eh.
    unfold valid_image in Hv.
    apply andb_prop in Hv as [Hv _]. apply andb_prop in Hv as [Hv _].
    apply andb_prop in Hv as [Hw Hh]. apply Z.ltb_lt in Hw, Hh. lia.
  - destruct (Z.ltb_spec w 1); [discriminate |].
    destruct (Z.ltb_spec h 1); [discriminate |]. intros _. lia.
Qed.

(** C2: for a valid input image and a positive scale, with [(tw, th)]
    the resolved grid, the image handed to the codec for saving has
    exactly the dimensions [(tw * scale, th * scale)], which are
    [(tw, th)] when the scale is 1; such an image is produced whenever
    the grid has at least one cell each way. *)
Theorem output_dimensions input_path output_path width height scale w img tw th :
  Image_open input_path (files w) = Ok img ->
  0 < scale ->
  resolve_dimensions (im_width img) (im_height img) width height = Ok (tw, th) ->
  (forall small_img pixelated_img,
     resize img (tw, th) = Ok small_img ->
     resize small_img (tw * scale, th * scale) = Ok pixelated_img ->
     size pixelated_img = (tw * scale, th * scale)
     /\ (scale = 1 -> size pixelated_img = (tw, th))
     /\ pixelate_image input_path output_path width height scale w
        = saved pixelated_img (resolved_output_path input_path output_path) w)
  /\ (0 < tw -> 0 < th ->
      exists small_img pixelated_img,
        resize img (tw, th) = Ok small_img
        /\ resize small_img (tw * scale, th * scale) = Ok pixelated_img).
Proof.
  intros Hopen Hk Hres. split.
  - intros small final Hsmall Hfinal.
    pose proof (resize_size _ _ _ Hfinal) as Hsz.
    split; [exact Hsz |]. split.
    + intros ->. now rewrite !Z.mul_1_r in Hsz.
    + rewrite (run_opened _ _ _ _ _ _ _ Hopen), Hres, Hsmall, Hfinal.
      reflexivity.
  - intros Htw Hth.
    destruct (run_reaches_save input_path output_path width height scale w
                img tw th Hopen Hres Htw Hth Hk)
      as (small & final & Hsmall & _ & _ & Hfinal & _).
    now exists small, final.
Qed.

(** C3: for a valid input image and a scale [k >= 1], in the image
    handed to the codec for saving, the [k] by [k] block of positions
    that covers grid cell [(i, j)] holds one colour, the pixel of the
    downsampled [tw] by [th] image at [(i, j)], which is the
    nearest-neighbour sample of the source for that cell; such an
    image is produced whenever the grid has at least one cell each
    way. *)
Theorem blocks_uniform input_path output_path width height k w img tw th :
  Image_open input_path (files w) = Ok img ->
  1 <= k ->
  resolve_dimensions (im_width img) (im_height img) width height = Ok (tw, th) ->
  (forall small_img pixelated_img,
     resize img (tw, th) = Ok small_img ->
     resize small_img (tw * k, th * k) = Ok pixelated_img ->
     pixelate_image input_path output_path width height k w
     = saved pixelated_img (resolved_output_path input_path output_path) w
     /\ forall i j dx dy,
          0 <= i < tw -> 0 <= j < th -> 0 <= dx < k -> 0 <= dy < k ->
          pixel_at pixelated_img (i * k + dx) (j * k + dy)
          = pixel_at small_img i j
          /\ pixel_at small_img i j
             = Some (sample img (nearest tw (im_width img) i)
                                (nearest th (im_height img) j)))
  /\ (0 < tw -> 0 < th ->
      exists small_img pixelated_img,
        resize img (tw, th) = Ok small_img
        /\ resize small_img (tw * k, th * k) = Ok pixelated_img).
Proof.
  intros Hopen Hk Hres. split.
  - intros small final Hsmall Hfinal.
    pose proof (Image_open_valid _ _ _ Hopen) as Hv.
    destruct (resize_Ok_positive _ _ _ _ Hv Hsmall) as [Htw Hth].
    destruct (resize_ok img tw th Hv Htw Hth)
      as (small' & Hsmall' & Hvs & Hsz & Hpix).
    rewrite Hsmall in Hsmall'. injection Hsmall' as <-.
    destruct (resize_ok small (tw * k) (th * k) Hvs ltac:(lia) ltac:(lia))
      as (final' & Hfinal' & _ & _ & Hpix').
    rewrite Hfinal in Hfinal'. injection Hfinal' as <-.
    injection Hsz as Hsw Hsh.
    split.
    + rewrite (run_opened _ _ _ _ _ _ _ Hopen), Hres, Hsmall, Hfinal.
      reflexivity.
    + intros i j dx dy Hi Hj Hdx Hdy.
      rewrite (Hpix i j Hi Hj). split; [| reflexivity].
      rewrite Hpix' by nia.
      rewrite Hsw, Hsh, !nearest_upscale by nia.
      replace ((i * k + dx) / k) with i
        by (apply Z.div_unique with (r := dx); lia).
      replace ((j * k + dy) / k) with j
        by (apply Z.div_unique with (r := dy); lia).
      rewrite <- (Hpix i j Hi Hj).
      symmetry. apply pixel_at_valid; [assumption | lia | lia].
  - intros Htw Hth.
    destruct (run_reaches_save input_path output_path width height k w
                img tw th Hopen Hres Htw Hth ltac:(lia))
      as (small & final & Hsmall & _ & _ & Hfinal & _).
    now exists small, final.
Qed.

End Output.

(** ** Failures (lines 20-23 and line 54) *)

Section Failures.
Context `{Codec}.


(** C6, as amended: when the codec fails to encode or write the final
    image, [pixelate_image] does not catch the failure: the codec's
    own exception reaches the caller unchanged, with the files as the
    codec left them. *)
Theorem save_error_propagates input_path output_path width height scale w
    img tw th small_img pixelated_img cause fs' :
  Image_open input_path (files w) = Ok img ->
  resolve_dimensions (im_width img) (im_height img) width height = Ok (tw, th) ->
  resize img (tw, th) = Ok small_img ->
  resize small_img (tw * scale, th * scale) = Ok pixelated_img ->
  Image_save pixelated_img (resolved_output_path input_path output_path)
    (files w) = (Raise cause, fs') ->
  pixelate_image input_path output_path width height scale w
  = (Raise cause, {| files := fs'; printed := printed w |}).
Proof.
  intros Hopen Hres Hsmall Hfinal Hsave.
  rewrite (run_opened _ _ _ _ _ _ _ Hopen), Hres, Hsmall, Hfinal.
  unfold saved. now rewrite Hsave.
Qed.

(** C7: when the input cannot be opened, [pixelate_image] fails
    before any write: the files and the printed lines are what they
    were. *)
Theorem load_error_writes_nothing input_path output_path width height scale w
    cause :
  Image_open input_path (files w) = Raise cause ->
  exists err,
    pixelate_image input_path output_path width height scale w = (Raise err, w).
Proof.
  intros Hopen. rewrite (run_load_error _ _ _ _ _ _ _ Hopen). eauto.
Qed.

(** C9: with no output path given, the path a run returns is
    [default_output_path] of the input path, whatever the files, the
    target sizes and the scale: two runs on the same input path return
    the same path. *)
Theorem default_path_deterministic input_path
    width1 height1 scale1 w1 p1 w1' width2 height2 scale2 w2 p2 w2' :
  pixelate_image input_path None width1 height1 scale1 w1 = (Ok p1, w1') ->
  pixelate_image input_path None width2 height2 scale2 w2 = (Ok p2, w2') ->
  p1 = p2 /\ p1 = default_output_path input_path.
Proof.
  intros H1 H2.
  apply run_returns_path in H1, H2. cbn in H1, H2. now subst.
Qed.

(** C10: the scale enters a run only in the last resize.  Either the
    run fails before that with one exception for every scale, or the
    opened image, the grid [(tw, th)], the downsampled image and the
    output path are fixed and, for every scale [k], the run hands the
    downsampled image enlarged to [(tw * k, th * k)] to the codec for
    that path (or fails in that resize). *)
Theorem scale_noninterference input_path output_path width height w :
  (exists e, forall k,
     pixelate_image input_path output_path width height k w = (Raise e, w))
  \/ (exists img tw th small_img,
        Image_open input_path (files w) = Ok img
        /\ resolve_dimensions (im_width img) (im_height img) width height
           = Ok (tw, th)
        /\ resize img (tw, th) = Ok small_img
        /\ size small_img = (tw, th)
        /\ forall k,
             match resize small_img (tw * k, th * k) with
             | Ok pixelated_img =>
                 size pixelated_img = (tw * k, th * k)
                 /\ pixelate_image input_path output_path width height k w
                    = saved pixelated_img
                        (resolved_output_path input_path output_path) w
             | Raise e =>
                 pixelate_image input_path output_path width height k w
                 = (Raise e, w)
             end).
Proof.
  destruct (Image_open input_path (files w)) as [img | cause] eqn:Hopen.
  2: { left. eexists. intros k. apply (run_load_error _ _ _ _ _ _ _ Hopen). }
  destruct (resolve_dimensions (im_width img) (im_height img) width height)
    as [[tw th] | e] eqn:Hres.
  2: { left. exists e. intros k.
       now rewrite (run_opened _ _ _ _ _ _ _ Hopen), Hres. }
  destruct (resize img (tw, th)) as [small | e] eqn:Hsmall.
  2: { left. exists e. intros k.
       now rewrite (run_opened _ _ _ _ _ _ _ Hopen), Hres, Hsmall. }
  right. exists img, tw, th, small.
  repeat (split; [first [reflexivity | assumption
                        | exact (resize_size _ _ _ Hsmall)] |]).
  intros k.
  destruct (resize small (tw * k, th * k)) as [final | e] eqn:Hfinal.
  - split; [exact (resize_size _ _ _ Hfinal) |].
    now rewrite (run_opened _ _ _ _ _ _ _ Hopen), Hres, Hsmall, Hfinal.
  - now rewrite (run_opened _ _ _ _ _ _ _ Hopen), Hres, Hsmall, Hfinal.
Qed.

(** ** The command line (lines 58-86) *)

(** C8, as amended: once [parse_args] has returned a namespace, a
    successful run prints ["Pixelated image saved to: <path>"] with
    the resolved output path and returns 0, and a run that raises
    prints ["Error: <message>"] and returns 1; no other status
    follows a parsed command line.  When [parse_args] leaves through
    [SystemExit], [main] ends with the parser's status and prints
    neither line. *)
Theorem main_exit_codes :
  (forall a w,
     match pixelate_image (args.input_path a) (args.output a) (args.width a)
             (args.height a) (args.pixels_per_pixel a) w with
     | (Ok path, w') =>
         main_parsed (Namespace a) w
         = (Return 0,
            {| files := files w';
               printed := printed w' ++ ["Pixelated image saved to: " +:+ path] |})
     | (Raise e, w') =>
         main_parsed (Namespace a) w
         = (Return 1,
            {| files := files w';
               printed := printed w' ++ ["Error: " +:+ str_exn e] |})
     end)
  /\ (forall a w,
        exit_status (main_parsed (Namespace a) w).1 = 0
        \/ exit_status (main_parsed (Namespace a) w).1 = 1)
  /\ (forall status w, main_parsed (ParserExit status) w = (SystemExit status, w)).
Proof.
  assert (Hrun : forall a w,
     match pixelate_image (args.input_path a) (args.output a) (args.width a)
             (args.height a) (args.pixels_per_pixel a) w with
     | (Ok path, w') =>
         main_parsed (Namespace a) w
         = (Return 0,
            {| files := files w';
               printed := printed w' ++ ["Pixelated image saved to: " +:+ path] |})
     | (Raise e, w') =>
         main_parsed (Namespace a) w
         = (Return 1,
            {| files := files w';
               printed := printed w' ++ ["Error: " +:+ str_exn e] |})
     end).
  { intros a w.
    unfold main_parsed, run_pixelate, bind, try_except, print, ret.
    destruct (pixelate_image _ _ _ _ _ w) as [[path | e] w']; reflexivity. }
  split; [exact Hrun |]. split; [| reflexivity].
  intros a w. specialize (Hrun a w).
  destruct (pixelate_image _ _ _ _ _ w) as [[path | e] w'];
    rewrite Hrun; cbn; auto.
Qed.

End Failures.

(** ** Runs on the in-memory codec *)

(** The end-to-end scenario of the specification: a 200 by 100 red
    image with [width = 4] and two pixels per cell gives an 8 by 4 red
    image at the default path. *)
Example red_200x100_w4_p2 :
  @pixelate_image MemCodec "red.png" None (Some 4) None 2 demo_world
  = (Ok "red_pixelated.png",
     @mkWorld MemCodec
       (<["red_pixelated.png" := solid 8 4 red]> (@files MemCodec demo_world))
       []).
Proof. vm_compute. reflexivity. Qed.

(** A grid with no row: a 200 by 1 image resolves to 32 by 0 and the
    codec refuses the size. *)
Example flat_image_has_no_grid :
  (@pixelate_image MemCodec "flat.png" None None None 1
     (@mkWorld MemCodec {[ "flat.png" := solid 200 1 red ]} [])).1
  = Raise (Exn "ValueError" "height and width must be > 0" None).
Proof. vm_compute. reflexivity. Qed.

Lemma output_dimensions_witness :
  exists small_img pixelated_img,
    resize (solid 200 100 red) (4, 2) = Ok small_img
    /\ resize small_img (4 * 2, 2 * 2) = Ok pixelated_img
    /\ size pixelated_img = (4 * 2, 2 * 2)
    /\ @pixelate_image MemCodec "red.png" None (Some 4) None 2 demo_world
       = @saved MemCodec pixelated_img (resolved_output_path "red.png" None)
           demo_world.
Proof.
  destruct (@output_dimensions MemCodec "red.png" None (Some 4) None 2
              demo_world (solid 200 100 red) 4 2)
    as [Hall Hsome].
  - vm_compute. reflexivity.
  - lia.
  - vm_compute. reflexivity.
  - destruct (Hsome ltac:(lia) ltac:(lia)) as (small & final & Hs & Hf).
    destruct (Hall small final Hs Hf) as (Hsize & _ & Hrun).
    exists small, final. auto.
Defined.

Lemma blocks_uniform_witness :
  exists small_img pixelated_img,
    resize (solid 200 100 red) (4, 2) = Ok small_img
    /\ resize small_img (4 * 2, 2 * 2) = Ok pixelated_img
    /\ pixel_at pixelated_img (3 * 2 + 1) (1 * 2 + 0) = pixel_at small_img 3 1
    /\ pixel_at small_img 3 1
       = Some (sample (solid 200 100 red) (nearest 4 200 3) (nearest 2 100 1)).
Proof.
  destruct (@blocks_uniform MemCodec "red.png" None (Some 4) None 2
              demo_world (solid 200 100 red) 4 2)
    as [Hall Hsome].
  - vm_compute. reflexivity.
  - lia.
  - vm_compute. reflexivity.
  - destruct (Hsome ltac:(lia) ltac:(lia)) as (small & final & Hs & Hf).
    destruct (Hall small final Hs Hf) as (_ & Hblock).
    destruct (Hblock 3 1 1 0 ltac:(lia) ltac:(lia) ltac:(lia) ltac:(lia))
      as [Hcell Hsample].
    exists small, final. auto.
Defined.


Lemma load_error_writes_nothing_witness :
  exists err,
    @pixelate_image MemCodec "nope.png" None None None 1 demo_world
    = (Raise err, demo_world).
Proof.
  apply (@load_error_writes_nothing MemCodec "nope.png" None None None 1
           demo_world
           (Exn "FileNotFoundError"
              "[Errno 2] No such file or directory: 'nope.png'" None)).
  vm_compute. reflexivity.
Defined.

Lemma save_error_propagates_witness :
  @pixelate_image MemCodec "red.png" (Some "out.xyz") (Some 4) None 2 demo_world
  = (Raise (Exn "ValueError" "unknown file extension: .xyz" None),
     @mkWorld MemCodec (@files MemCodec demo_world) (@printed MemCodec demo_world)).
Proof.
  apply (@save_error_propagates MemCodec "red.png" (Some "out.xyz") (Some 4)
           None 2 demo_world (solid 200 100 red) 4 2 (solid 4 2 red)
           (solid 8 4 red));
    vm_compute; reflexivity.
Defined.

(** C6 as stated fails: saving to ["out.xyz"] fails in the codec with
    a [ValueError], and what [pixelate_image] raises is that very
    exception, not an error that carries it as its cause; its class is
    the one line 23 uses for load errors. *)
Lemma save_error_not_wrapped :
  let run :=
    @pixelate_image MemCodec "red.png" (Some "out.xyz") (Some 4) None 2
      demo_world in
  let cause := Exn "ValueError" "unknown file extension: .xyz" None in
  (@Image_save MemCodec (solid 8 4 red) "out.xyz" (@files MemCodec demo_world)).1
  = Raise cause
  /\ run.1 = Raise cause
  /\ ~ (exists err, run.1 = Raise err /\ exn_context err = Some cause).
Proof.
  cbv zeta.
  split; [vm_compute; reflexivity |].
  split; [vm_compute; reflexivity |].
  intros (err & Herr & Hctx).
  vm_compute in Herr. injection Herr as <-. discriminate Hctx.
Qed.

Lemma default_path_deterministic_witness :
  (@pixelate_image MemCodec "red.png" None (Some 4) None 2 demo_world).1
  = Ok "red_pixelated.png"
  /\ (@pixelate_image MemCodec "red.png" None None None 1 other_world).1
     = Ok "red_pixelated.png"
  /\ "red_pixelated.png" = default_output_path "red.png".
Proof.
  split; [vm_compute; reflexivity |].
  split; [vm_compute; reflexivity |].
  refine (proj2 (@default_path_deterministic MemCodec "red.png"
                   (Some 4) None 2 demo_world "red_pixelated.png"
                   (@mkWorld MemCodec
                      (<["red_pixelated.png" := solid 8 4 red]>
                         (@files MemCodec demo_world)) [])
                   None None 1 other_world "red_pixelated.png"
                   (@mkWorld MemCodec
                      (<["red_pixelated.png" := solid 32 24 black]>
                         (@files MemCodec other_world)) ["an earlier line"])
                   _ _));
    vm_compute; reflexivity.
Defined.

(** C8 as stated fails on a command line the parser rejects: with no
    argument at all [parse_args] leaves with status 2, which is the
    status of the process, and no ["Error: ..."] line is printed. *)
Lemma main_usage_error_exits_2 :
  parse_args [] = Some (ParserExit 2)
  /\ (fun r => (exit_status r.1, @printed MemCodec r.2))
       <$> @main MemCodec [] demo_world
     = Some (2, []).
Proof. split; reflexivity. Qed.

(** ** More on the default output path *)

Section DefaultPathFacts.

Lemma rfind_append_none c s t :
  rfind c s = -1 -> rfind c t = -1 -> rfind c (s +:+ t) = -1.
Proof. intros Hs Ht. rewrite rfind_append, Ht. exact Hs. Qed.

Lemma rfind_append_none_inv c s t :
  rfind c (s +:+ t) = -1 -> rfind c s = -1 /\ rfind c t = -1.
Proof.
  rewrite rfind_append. pose proof (rfind_bounds c t).
  destruct (Z.leb_spec 0 (rfind c t)); intros E; lia.
Qed.

Lemma rfind_none_rsplit c s : rfind c s = -1 -> rsplit c s = None.
Proof.
  intros E. destruct (rsplit c s) as [[pre post] |] eqn:Es; [| reflexivity].
  destruct (rsplit_Some _ _ _ _ Es) as (_ & _ & Hlen). lia.
Qed.

Lemma rsplit_append c s t :
  rsplit c (s +:+ t) =
  match rsplit c t with
  | Some (pre, post) => Some (s +:+ pre, post)
  | None =>
      match rsplit c s with
      | Some (pre, post) => Some (pre, post +:+ t)
      | None => None
      end
  end.
Proof.
  induction s as [| a s IH].
  - rewrite append_nil_l. cbn [rsplit].
    destruct (rsplit c t) as [[pre post] |]; reflexivity.
  - rewrite append_cons. cbn [rsplit]. rewrite IH.
    destruct (rsplit c t) as [[pre post] |]; [reflexivity |].
    destruct (rsplit c s) as [[pre post] |]; [reflexivity |].
    destruct (Ascii.eqb a c); reflexivity.
Qed.

Lemma all_dots_append s t : all_dots (s +:+ t) = all_dots s && all_dots t.
Proof.
  induction s as [| a s IH]; [reflexivity |].
  rewrite append_cons. cbn [all_dots]. rewrite IH. now rewrite andb_assoc.
Qed.

(** The path is its directory part followed by its final segment; the
    segment holds no separator, and replacing it by another segment
    keeps the directory part. *)
Lemma final_segment_facts p :
  let '(D, seg) := split_final_segment p in
  p = D +:+ seg
  /\ rfind sep seg = -1
  /\ rfind sep D = Z.of_nat (String.length D) - 1
  /\ forall seg', rfind sep seg' = -1 ->
       split_final_segment (D +:+ seg') = (D, seg').
Proof.
  unfold split_final_segment.
  destruct (rsplit sep p) as [[dir seg] |] eqn:E.
  - destruct (rsplit_Some _ _ _ _ E) as (Hp & Hseg & _).
    split; [now rewrite append_assoc, append_cons, append_nil_l |].
    split; [exact Hseg |]. split.
    + rewrite rfind_append, length_append. cbn. lia.
    + intros seg' Hseg'.
      rewrite append_assoc, append_cons, append_nil_l, rsplit_append.
      cbn [rsplit]. rewrite (rfind_none_rsplit _ _ Hseg').
      unfold sep at 1 2. cbn [Ascii.eqb Bool.eqb]. now rewrite append_nil_r.
  - split; [reflexivity |]. split; [now apply rsplit_None |].
    split; [reflexivity |].
    intros seg' Hseg'. rewrite append_nil_l.
    now rewrite (rfind_none_rsplit _ _ Hseg').
Qed.

Lemma rfind_sep_at D seg :
  rfind sep D = Z.of_nat (String.length D) - 1 -> rfind sep seg = -1 ->
  rfind sep (D +:+ seg) = Z.of_nat (String.length D) - 1.
Proof. intros HD Hseg. now rewrite rfind_append, Hseg. Qed.

(** The default output path stays in the directory of the input, and
    splits into the input's base with the suffix and the input's
    extension. *)
Lemma default_output_path_segment p :
  let '(D, seg) := split_final_segment p in
  exists seg',
    default_output_path p = D +:+ seg'
    /\ rfind sep seg' = -1
    /\ splitext (D +:+ seg')
       = ((splitext p).1 +:+ "_pixelated", (splitext p).2).
Proof.
  pose proof (final_segment_facts p) as F.
  destruct (split_final_segment p) as [D seg].
  destruct F as (Hp & Hseg & HD & _).
  assert (Hsuffix : rfind sep "_pixelated" = -1) by reflexivity.
  unfold default_output_path. subst p.
  rewrite (splitext_at D seg (rfind_sep_at D seg HD Hseg)).
  destruct (rsplit extsep seg) as [[stem e] |] eqn:E.
  - destruct (rsplit_Some _ _ _ _ E) as (Hstem & He & _).
    rewrite Hstem in Hseg.
    apply rfind_append_none_inv in Hseg as [Hs1 Hs2].
    destruct (all_dots stem) eqn:Edots.
    + exists (seg +:+ "_pixelated"). cbn [fst snd].
      rewrite append_nil_r, append_assoc.
      split; [reflexivity |].
      assert (Hseg' : rfind sep (seg +:+ "_pixelated") = -1).
      { rewrite Hstem. apply rfind_append_none; [| exact Hsuffix].
        now apply rfind_append_none. }
      split; [exact Hseg' |].
      rewrite (splitext_at D _ (rfind_sep_at D _ HD Hseg')).
      rewrite rsplit_append, E. cbn [rsplit Ascii.eqb Bool.eqb extsep].
      now rewrite Edots.
    + exists ((stem +:+ "_pixelated") +:+ String extsep e). cbn [fst snd].
      split; [now rewrite !append_assoc |].
      assert (Hseg' : rfind sep ((stem +:+ "_pixelated") +:+ String extsep e) = -1).
      { apply rfind_append_none; [| exact Hs2].
        now apply rfind_append_none. }
      split; [exact Hseg' |].
      rewrite (splitext_at D _ (rfind_sep_at D _ HD Hseg')).
      rewrite rsplit_append. cbn [rsplit].
      rewrite (rfind_none_rsplit _ _ He), Ascii.eqb_refl, append_nil_r.
      rewrite all_dots_append, Edots. cbn [andb].
      now rewrite append_assoc.
  - exists (seg +:+ "_pixelated"). cbn [fst snd].
    rewrite append_nil_r, append_assoc.
    split; [reflexivity |].
    assert (Hseg' : rfind sep (seg +:+ "_pixelated") = -1)
      by now apply rfind_append_none.
    split; [exact Hseg' |].
    rewrite (splitext_at D _ (rfind_sep_at D _ HD Hseg')).
    rewrite rsplit_append, E. reflexivity.
Qed.



(** X2: the default output path splits into the base of the input
    followed by ["_pixelated"] and the extension of the input: the
    output keeps the extension, and with it the format, of the
    input. *)
Theorem default_output_path_keeps_extension p :
  splitext (default_output_path p)
  = ((splitext p).1 +:+ "_pixelated", (splitext p).2).
Proof.
  pose proof (default_output_path_segment p) as S.
  destruct (split_final_segment p) as [D seg].
  destruct S as (seg' & -> & _ & Hsplit). exact Hsplit.
Qed.

(** X3: the default output path lies in the directory of the input:
    both have the same part up to the last ['/']. *)
Theorem default_output_path_same_directory p :
  (split_final_segment (default_output_path p)).1 = (split_final_segment p).1.
Proof.
  pose proof (default_output_path_segment p) as S.
  pose proof (final_segment_facts p) as F.
  destruct (split_final_segment p) as [D seg].
  destruct S as (seg' & -> & Hseg' & _).
  destruct F as (_ & _ & _ & Hkeep).
  now rewrite (Hkeep seg' Hseg').
Qed.

End DefaultPathFacts.

(** ** More on true division *)

Section TruncationFacts.
Import Float.

Lemma quot_sign a b :
  a <> 0 -> b <> 0 ->
  Z.quot a b = Z.sgn a * Z.sgn b * (Z.abs a / Z.abs b).
Proof.
  intros Ha Hb. rewrite <- Z.quot_div_nonneg by lia.
  destruct (Z.lt_total a 0) as [Na | [? | Pa]]; [| lia |];
  destruct (Z.lt_total b 0) as [Nb | [? | Pb]]; try lia.
  - rewrite (Z.sgn_neg a), (Z.sgn_neg b), (Z.abs_neq a), (Z.abs_neq b) by lia.
    rewrite Z.quot_opp_opp by lia. lia.
  - rewrite (Z.sgn_neg a), (Z.sgn_pos b), (Z.abs_neq a), (Z.abs_eq b) by lia.
    rewrite Z.quot_opp_l by lia. lia.
  - rewrite (Z.sgn_pos a), (Z.sgn_neg b), (Z.abs_eq a), (Z.abs_neq b) by lia.
    rewrite Z.quot_opp_r by lia. lia.
  - rewrite (Z.sgn_pos a), (Z.sgn_pos b), (Z.abs_eq a), (Z.abs_eq b) by lia.
    lia.
Qed.

Lemma to_int_sign s m e :
  s = 1 \/ s = -1 -> to_int (mk (s * m) e) = s * to_int (mk m e).
Proof.
  intros Hs. unfold to_int. cbn [mant expo].
  destruct (Z.leb_spec 0 e) as [He | He]; [lia |].
  destruct Hs as [-> | ->]; [now rewrite !Z.mul_1_l |].
  assert (Hnz : 2 ^ (- e) <> 0) by (apply Z.pow_nonzero; lia).
  replace (-1 * m) with (- m) by lia. rewrite Z.quot_opp_l by exact Hnz. lia.
Qed.

(** X4: on operands of either sign, [int(a / b)] truncates toward
    zero as long as the dividend has at most 53 bits. *)
Theorem int_truediv_truncates_toward_zero a b :
  - 2 ^ 53 < a < 2 ^ 53 -> b <> 0 -> int_truediv a b = Ok (Z.quot a b).
Proof.
  intros Ha Hb.
  destruct (Z.eq_dec a 0) as [-> | Hnz].
  { unfold int_truediv, truediv.
    destruct (Z.eqb_spec b 0); [contradiction |]. cbn.
    now rewrite Z.quot_0_l by exact Hb. }
  pose proof (int_truediv_small (Z.abs a) (Z.abs b) ltac:(lia) ltac:(lia)) as Hs.
  rewrite (quot_sign a b Hnz Hb).
  unfold int_truediv, truediv in *.
  destruct (Z.eqb_spec b 0); [contradiction |].
  destruct (Z.eqb_spec a 0); [contradiction |].
  destruct (Z.eqb_spec (Z.abs b) 0); [lia |].
  destruct (Z.eqb_spec (Z.abs a) 0); [lia |].
  rewrite !Z.abs_idemp in Hs.
  rewrite (Z.sgn_pos (Z.abs a)), (Z.sgn_pos (Z.abs b)) in Hs by lia.
  cbv zeta in *.
  destruct (2 ^ 1024 <=? _); [discriminate |].
  cbn [result_map result_bind] in *. injection Hs as Hs.
  rewrite !Z.mul_1_l in Hs.
  rewrite to_int_sign, Hs; [reflexivity |].
  destruct (Z.lt_total a 0) as [? | [? | ?]]; [| lia |];
  destruct (Z.lt_total b 0) as [? | [? | ?]]; try lia;
  rewrite ?(Z.sgn_neg a), ?(Z.sgn_pos a), ?(Z.sgn_neg b), ?(Z.sgn_pos b) by lia;
  lia.
Qed.

Lemma int_truediv_truncates_toward_zero_witness :
  int_truediv (-7) 2 = Ok (Z.quot (-7) 2).
Proof. apply int_truediv_truncates_toward_zero; lia. Defined.

(** X5: with one target size [g] given, the other is resolved so that
    the grid keeps the aspect ratio of the image to within one cell. *)
Theorem aspect_ratio_within_one_cell W0 H0 g :
  0 < W0 -> 0 < H0 -> 0 < g -> H0 * g < 2 ^ 53 -> W0 * g < 2 ^ 53 ->
  (exists th,
     resolve_dimensions W0 H0 (Some g) None = Ok (g, th)
     /\ th * W0 <= H0 * g < (th + 1) * W0)
  /\ (exists tw,
        resolve_dimensions W0 H0 None (Some g) = Ok (tw, g)
        /\ tw * H0 <= W0 * g < (tw + 1) * H0).
Proof.
  intros HW HH Hg Hb1 Hb2. split.
  - exists (H0 * g / W0). cbn [resolve_dimensions].
    rewrite int_truediv_small by lia. split; [reflexivity |].
    pose proof (Z.div_mod (H0 * g) W0 ltac:(lia)).
    pose proof (Z.mod_pos_bound (H0 * g) W0 HW). nia.
  - exists (W0 * g / H0). cbn [resolve_dimensions].
    rewrite int_truediv_small by lia. split; [reflexivity |].
    pose proof (Z.div_mod (W0 * g) H0 ltac:(lia)).
    pose proof (Z.mod_pos_bound (W0 * g) H0 HH). nia.
Qed.

Lemma aspect_ratio_within_one_cell_witness :
  (exists th,
     resolve_dimensions 100 50 (Some 33) None = Ok (33, th)
     /\ th * 100 <= 50 * 33 < (th + 1) * 100)
  /\ (exists tw,
        resolve_dimensions 100 50 None (Some 33) = Ok (tw, 33)
        /\ tw * 50 <= 100 * 33 < (tw + 1) * 50).
Proof. apply aspect_ratio_within_one_cell; lia. Defined.

End TruncationFacts.

(** ** More on runs *)

Section RunFacts.
Context `{Codec}.

Lemma resize_Ok_valid im new_size out :
  valid_image im = true -> resize im new_size = Ok out ->
  valid_image out = true.
Proof.
  intros Hv. destruct new_size as [w h]. unfold resize.
  destruct ((im_width im =? w) && (im_height im =? h)).
  - now intros [= <-].
  - destruct (Z.ltb_spec w 1); [discriminate |].
    destruct (Z.ltb_spec h 1); [discriminate |]. cbn [orb].
    intros [= <-]. apply valid_resize_nearest; lia.
Qed.

(** A size with a side below one pixel is refused. *)
Lemma resize_below_one im w h :
  valid_image im = true -> w < 1 \/ h < 1 ->
  resize im (w, h) = Raise size_error.
Proof.
  intros Hv Hsmall. unfold resize.
  unfold valid_image in Hv.
  apply andb_prop in Hv as [Hv _]. apply andb_prop in Hv as [Hv _].
  apply andb_prop in Hv as [Hw Hh]. apply Z.ltb_lt in Hw, Hh.
  destruct (Z.eqb_spec (im_width im) w); destruct (Z.eqb_spec (im_height im) h);
    cbn [andb]; try lia;
  destruct (Z.ltb_spec w 1); destruct (Z.ltb_spec h 1); cbn [orb];
    try reflexivity; lia.
Qed.

Lemma nearest_bounds out_len in_len i :
  0 < out_len -> 0 < in_len -> 0 <= i < out_len ->
  0 <= nearest out_len in_len i < in_len.
Proof.
  intros Ho Hi Hx. unfold nearest. split.
  - apply Z.div_pos; nia.
  - apply Z.div_lt_upper_bound; nia.
Qed.

(** X6: a run writes at most once: it raises and leaves the world as
    it was, or its result and its effect are those of a single
    [Image.save] of a valid image to the resolved output path. *)
Theorem run_writes_at_most_once input_path output_path width height k w :
  (exists e,
     pixelate_image input_path output_path width height k w = (Raise e, w))
  \/ (exists pixelated_img,
        valid_image pixelated_img = true
        /\ pixelate_image input_path output_path width height k w
           = saved pixelated_img
               (resolved_output_path input_path output_path) w).
Proof.
  destruct (Image_open input_path (files w)) as [img | cause] eqn:Hopen.
  2: { left. eexists. apply (run_load_error _ _ _ _ _ _ _ Hopen). }
  pose proof (Image_open_valid _ _ _ Hopen) as Hv.
  rewrite (run_opened _ _ _ _ _ _ _ Hopen).
  destruct (resolve_dimensions _ _ _ _) as [[tw th] | e]; [| eauto].
  destruct (resize img (tw, th)) as [small | e] eqn:Hsmall; [| eauto].
  destruct (resize small _) as [final | e] eqn:Hfinal; [| eauto].
  right. exists final. split; [| reflexivity].
  eapply resize_Ok_valid; [| exact Hfinal].
  eapply resize_Ok_valid; [exact Hv | exact Hsmall].
Qed.

(** X7: [pixelate_image] prints nothing, whether it returns or
    raises. *)
Theorem run_never_prints input_path output_path width height k w :
  printed (pixelate_image input_path output_path width height k w).2
  = printed w.
Proof.
  destruct (Image_open input_path (files w)) as [img | cause] eqn:Hopen.
  2: { now rewrite (run_load_error _ _ _ _ _ _ _ Hopen). }
  rewrite (run_opened _ _ _ _ _ _ _ Hopen).
  destruct (resolve_dimensions _ _ _ _) as [[tw th] | e]; [| reflexivity].
  destruct (resize img (tw, th)) as [small | e]; [| reflexivity].
  destruct (resize small _) as [final | e]; [| reflexivity].
  unfold saved. destruct (Image_save _ _ _) as [r fs']. reflexivity.
Qed.

Lemma resolve_keeps_given W0 H0 width height tw th :
  resolve_dimensions W0 H0 width height = Ok (tw, th) ->
  (forall g, width = Some g -> tw = g) /\ (forall g, height = Some g -> th = g).
Proof.
  destruct width as [gw |], height as [gh |]; cbn [resolve_dimensions];
    try (destruct (int_truediv _ _); cbn [result_bind]);
    intros E; try discriminate; injection E as <- <-;
    split; intros g Hg; congruence.
Qed.

(** X8: a scale of zero or below never produces an output: the run
    raises and writes nothing. *)
Theorem nonpositive_scale_fails input_path output_path width height k w :
  k <= 0 ->
  exists e,
    pixelate_image input_path output_path width height k w = (Raise e, w).
Proof.
  intros Hk.
  destruct (Image_open input_path (files w)) as [img | cause] eqn:Hopen.
  2: { eexists. apply (run_load_error _ _ _ _ _ _ _ Hopen). }
  pose proof (Image_open_valid _ _ _ Hopen) as Hv.
  rewrite (run_opened _ _ _ _ _ _ _ Hopen).
  destruct (resolve_dimensions _ _ _ _) as [[tw th] | e]; [| eauto].
  destruct (resize img (tw, th)) as [small | e] eqn:Hsmall; [| eauto].
  destruct (resize_Ok_positive _ _ _ _ Hv Hsmall) as [Htw Hth].
  rewrite (resize_below_one small (tw * k) (th * k)
             (resize_Ok_valid _ _ _ Hv Hsmall) ltac:(nia)).
  eauto.
Qed.


(** X9: with no target size given, an image more than 32 times as
    wide as it is high resolves to a grid of height zero: the codec
    refuses the size and the run raises and writes nothing. *)
Theorem wide_image_default_fails input_path output_path k w img :
  Image_open input_path (files w) = Ok img ->
  im_height img * 32 < im_width img ->
  im_height img * 32 < 2 ^ 53 ->
  pixelate_image input_path output_path None None k w = (Raise size_error, w).
Proof.
  intros Hopen Hwide Hbound.
  pose proof (Image_open_valid _ _ _ Hopen) as Hv.
  assert (Hpos : 0 < im_width img /\ 0 < im_height img).
  { unfold valid_image in Hv.
    apply andb_prop in Hv as [Hv _]. apply andb_prop in Hv as [Hv _].
    apply andb_prop in Hv as [Hw Hh]. apply Z.ltb_lt in Hw, Hh. lia. }
  rewrite (run_opened _ _ _ _ _ _ _ Hopen). cbn [resolve_dimensions].
  rewrite int_truediv_small by lia. cbn [result_bind].
  rewrite Z.div_small by lia.
  now rewrite (resize_below_one img 32 0 Hv ltac:(lia)).
Qed.


(** X10: at scale 1 the image that is saved is the downsampled image
    itself. *)
Theorem scale_one_saves_downsampled input_path output_path width height w
    img tw th small_img :
  Image_open input_path (files w) = Ok img ->
  resolve_dimensions (im_width img) (im_height img) width height = Ok (tw, th) ->
  resize img (tw, th) = Ok small_img ->
  pixelate_image input_path output_path width height 1 w
  = saved small_img (resolved_output_path input_path output_path) w.
Proof.
  intros Hopen Hres Hsmall.
  rewrite (run_opened _ _ _ _ _ _ _ Hopen), Hres, Hsmall, !Z.mul_1_r.
  pose proof (resize_size _ _ _ Hsmall) as Hsz. injection Hsz as Hw Hh.
  unfold resize. now rewrite Hw, Hh, !Z.eqb_refl.
Qed.


(** X11: a target width or height of zero or below is passed on
    unchecked and never produces an output: the run raises and writes
    nothing. *)
Theorem nonpositive_size_fails input_path output_path width height k w g :
  g <= 0 -> width = Some g \/ height = Some g ->
  exists e,
    pixelate_image input_path output_path width height k w = (Raise e, w).
Proof.
  intros Hg Hgiven.
  destruct (Image_open input_path (files w)) as [img | cause] eqn:Hopen.
  2: { eexists. apply (run_load_error _ _ _ _ _ _ _ Hopen). }
  pose proof (Image_open_valid _ _ _ Hopen) as Hv.
  rewrite (run_opened _ _ _ _ _ _ _ Hopen).
  destruct (resolve_dimensions _ _ _ _) as [[tw th] | e] eqn:Hres; [| eauto].
  destruct (resolve_keeps_given _ _ _ _ _ _ Hres) as [Hkw Hkh].
  rewrite (resize_below_one img tw th Hv); [eauto |].
  destruct Hgiven as [Hw | Hh];
    [rewrite (Hkw g Hw) | rewrite (Hkh g Hh)]; lia.
Qed.

End RunFacts.


Lemma nonpositive_scale_fails_witness :
  exists e,
    @pixelate_image MemCodec "red.png" None (Some 4) None 0 demo_world
    = (Raise e, demo_world).
Proof. apply (@nonpositive_scale_fails MemCodec). lia. Defined.

Lemma nonpositive_size_fails_witness :
  exists e,
    @pixelate_image MemCodec "red.png" None (Some 0) None 1 demo_world
    = (Raise e, demo_world).
Proof.
  apply (@nonpositive_size_fails MemCodec "red.png" None (Some 0) None 1
           demo_world 0); [lia | left; reflexivity].
Defined.

Lemma wide_image_default_fails_witness :
  @pixelate_image MemCodec "flat.png" None None None 1
    (@mkWorld MemCodec {[ "flat.png" := solid 200 1 red ]} [])
  = (Raise size_error, @mkWorld MemCodec {[ "flat.png" := solid 200 1 red ]} []).
Proof.
  apply (@wide_image_default_fails MemCodec "flat.png" None 1
           (@mkWorld MemCodec {[ "flat.png" := solid 200 1 red ]} [])
           (solid 200 1 red)).
  - vm_compute. reflexivity.
  - vm_compute. reflexivity.
  - vm_compute. reflexivity.
Defined.

Lemma scale_one_saves_downsampled_witness :
  @pixelate_image MemCodec "red.png" None (Some 4) None 1 demo_world
  = @saved MemCodec (solid 4 2 red) (resolved_output_path "red.png" None)
      demo_world.
Proof.
  apply (@scale_one_saves_downsampled MemCodec "red.png" None (Some 4) None
           demo_world (solid 200 100 red) 4 2 (solid 4 2 red));
    vm_compute; reflexivity.
Defined.

(** ** Where the pixels of the output come from *)

Section PixelFacts.
Context `{Codec}.

(** Through the two resizes, each pixel of the final image is read
    from one position of the source. *)
Lemma two_resizes_pixel img tw th k small_img pixelated_img :
  valid_image img = true ->
  resize img (tw, th) = Ok small_img ->
  resize small_img (tw * k, th * k) = Ok pixelated_img ->
  0 < k ->
  forall x y, 0 <= x < tw * k -> 0 <= y < th * k ->
    let sx := nearest tw (im_width img) (nearest (tw * k) tw x) in
    let sy := nearest th (im_height img) (nearest (th * k) th y) in
    (0 <= sx < im_width img /\ 0 <= sy < im_height img)
    /\ pixel_at pixelated_img x y = Some (sample img sx sy)
    /\ pixel_at img sx sy = Some (sample img sx sy).
Proof.
  intros Hv Hsmall Hfinal Hk x y Hx Hy sx sy.
  assert (Hpos : 0 < im_width img /\ 0 < im_height img).
  { unfold valid_image in Hv.
    apply andb_prop in Hv as [Hv' _]. apply andb_prop in Hv' as [Hv' _].
    apply andb_prop in Hv' as [Hw Hh]. apply Z.ltb_lt in Hw, Hh. lia. }
  destruct (resize_Ok_positive _ _ _ _ Hv Hsmall) as [Htw Hth].
  destruct (resize_ok img tw th Hv Htw Hth)
    as (small' & Hsmall' & Hvs & Hsz & Hpix).
  rewrite Hsmall in Hsmall'. injection Hsmall' as <-.
  destruct (resize_ok small_img (tw * k) (th * k) Hvs ltac:(lia) ltac:(lia))
    as (final' & Hfinal' & _ & _ & Hpix').
  rewrite Hfinal in Hfinal'. injection Hfinal' as <-.
  injection Hsz as Hsw Hsh.
  pose proof (nearest_bounds (tw * k) tw x ltac:(lia) Htw Hx) as Bx.
  pose proof (nearest_bounds (th * k) th y ltac:(lia) Hth Hy) as By.
  pose proof (nearest_bounds tw (im_width img) _ Htw (proj1 Hpos) Bx) as Sx.
  pose proof (nearest_bounds th (im_height img) _ Hth (proj2 Hpos) By) as Sy.
  split; [split; assumption |]. split.
  - rewrite (Hpix' x y Hx Hy), Hsw, Hsh. f_equal.
    unfold sample at 1. now rewrite (Hpix _ _ Bx By).
  - now apply pixel_at_valid.
Qed.

(** X12: no colour is invented: every pixel of the image that is
    saved is the pixel of the input image at some position. *)
Theorem output_pixels_from_source input_path width height k w
    img tw th small_img pixelated_img :
  Image_open input_path (files w) = Ok img ->
  resolve_dimensions (im_width img) (im_height img) width height = Ok (tw, th) ->
  resize img (tw, th) = Ok small_img ->
  resize small_img (tw * k, th * k) = Ok pixelated_img ->
  0 < k ->
  forall x y, 0 <= x < tw * k -> 0 <= y < th * k ->
    exists sx sy,
      0 <= sx < im_width img /\ 0 <= sy < im_height img
      /\ is_Some (pixel_at pixelated_img x y)
      /\ pixel_at pixelated_img x y = pixel_at img sx sy.
Proof.
  intros Hopen _ Hsmall Hfinal Hk x y Hx Hy.
  pose proof (Image_open_valid _ _ _ Hopen) as Hv.
  destruct (two_resizes_pixel img tw th k small_img pixelated_img
              Hv Hsmall Hfinal Hk x y Hx Hy) as ([Sx Sy] & Hout & Hin).
  eexists _, _. split; [exact Sx |]. split; [exact Sy |].
  rewrite Hout, Hin. split; [eauto | reflexivity].
Qed.

Lemma all_pixels_solid im c :
  all_pixels im c = true -> forall x y p, pixel_at im x y = Some p -> p = c.
Proof.
  unfold all_pixels, pixel_at. intros Hall x y p.
  destruct (_ && _); [| discriminate].
  destruct (im_rows im !! Z.to_nat y) as [row |] eqn:Hrow; [| discriminate].
  cbn. intros Hp.
  rewrite forallb_forall in Hall.
  specialize (Hall row (proj1 (list_elem_of_In _ _)
                          (list_elem_of_lookup_2 _ _ _ Hrow))).
  rewrite forallb_forall in Hall.
  specialize (Hall p (proj1 (list_elem_of_In _ _)
                        (list_elem_of_lookup_2 _ _ _ Hp))).
  now apply bool_decide_eq_true in Hall.
Qed.

(** X13: an input of a single colour gives an output of that colour:
    every position of the image that is saved holds it. *)
Theorem solid_stays_solid input_path width height k w
    img tw th small_img pixelated_img c :
  Image_open input_path (files w) = Ok img ->
  resolve_dimensions (im_width img) (im_height img) width height = Ok (tw, th) ->
  resize img (tw, th) = Ok small_img ->
  resize small_img (tw * k, th * k) = Ok pixelated_img ->
  0 < k ->
  all_pixels img c = true ->
  is_solid pixelated_img c.
Proof.
  intros Hopen _ Hsmall Hfinal Hk Hall x y Hx Hy.
  pose proof (Image_open_valid _ _ _ Hopen) as Hv.
  pose proof (resize_size _ _ _ Hfinal) as Hsz. injection Hsz as Hw Hh.
  rewrite Hw in Hx. rewrite Hh in Hy.
  destruct (two_resizes_pixel img tw th k small_img pixelated_img
              Hv Hsmall Hfinal Hk x y Hx Hy) as (_ & Hout & Hin).
  rewrite Hout. f_equal. exact (all_pixels_solid img c Hall _ _ _ Hin).
Qed.

End PixelFacts.

Lemma output_pixels_from_source_witness :
  exists sx sy,
    0 <= sx < im_width (solid 200 100 red)
    /\ 0 <= sy < im_height (solid 200 100 red)
    /\ is_Some (pixel_at (solid 8 4 red) 7 3)
    /\ pixel_at (solid 8 4 red) 7 3 = pixel_at (solid 200 100 red) sx sy.
Proof.
  apply (@output_pixels_from_source MemCodec "red.png" (Some 4) None 2
           demo_world (solid 200 100 red) 4 2 (solid 4 2 red) (solid 8 4 red));
    first [lia | vm_compute; reflexivity].
Defined.

Lemma solid_stays_solid_witness : is_solid (solid 8 4 red) red.
Proof.
  apply (@solid_stays_solid MemCodec "red.png" (Some 4) None 2
           demo_world (solid 200 100 red) 4 2 (solid 4 2 red) (solid 8 4 red));
    first [lia | vm_compute; reflexivity].
Defined.

(** ** More on the command line *)

Section MainFacts.
Context `{Codec}.

(** [main] after parsing: the run, then one printed line and the
    status. *)
Lemma main_parsed_after_run a w :
  match pixelate_image (args.input_path a) (args.output a) (args.width a)
          (args.height a) (args.pixels_per_pixel a) w with
  | (Ok path, w') =>
      main_parsed (Namespace a) w
      = (Return 0,
         {| files := files w';
            printed := printed w' ++ ["Pixelated image saved to: " +:+ path] |})
  | (Raise e, w') =>
      main_parsed (Namespace a) w
      = (Return 1,
         {| files := files w';
            printed := printed w' ++ ["Error: " +:+ str_exn e] |})
  end.
Proof.
  unfold main_parsed, run_pixelate, bind, try_except, print, ret.
  destruct (pixelate_image _ _ _ _ _ w) as [[path | e] w']; reflexivity.
Qed.

(** A single plain argument is the input path; every option keeps
    its default. *)
Lemma parse_args_single path :
  plain path = true ->
  parse_args [path] = Some (Namespace (args.mk path None None None 1)).
Proof.
  intros Hplain. unfold parse_args. cbn [parse_tokens].
  assert (Hh : is_help path = false /\ flag_of path = None).
  { destruct path as [| c r]; [split; reflexivity |].
    cbn [plain] in Hplain. apply negb_true_iff in Hplain.
    unfold is_help, flag_of. cbn [String.eqb]. rewrite Hplain.
    split; reflexivity. }
  destruct Hh as [-> ->]. rewrite Hplain. reflexivity.
Qed.

(** X14: when the input cannot be opened, [main] prints the one line
    ["Error: Could not open image <path>: <cause>"], returns 1 and
    leaves the files as they were. *)
Theorem main_reports_load_error a w cause :
  Image_open (args.input_path a) (files w) = Raise cause ->
  main_parsed (Namespace a) w
  = (Return 1,
     {| files := files w;
        printed := printed w
                   ++ ["Error: Could not open image " +:+ args.input_path a
                         +:+ ": " +:+ str_exn cause] |}).
Proof.
  intros Hopen. pose proof (main_parsed_after_run a w) as Hrun.
  rewrite (run_load_error _ _ _ _ _ _ _ Hopen) in Hrun. exact Hrun.
Qed.

(** X15: the tool called with the input path alone, on an image that
    opens and is at most 32 times as wide as it is high: the image
    handed to the codec is 32 cells wide with the height of the aspect
    ratio, at scale 1, for the default output path; if the codec
    writes it, [main] prints the success line and returns 0. *)
Theorem main_default_run path w img :
  plain path = true ->
  Image_open path (files w) = Ok img ->
  im_width img <= im_height img * 32 ->
  im_height img * 32 < 2 ^ 53 ->
  exists pixelated_img,
    size pixelated_img = (32, im_height img * 32 / im_width img)
    /\ forall fs',
         Image_save pixelated_img (default_output_path path) (files w)
         = (Ok (), fs') ->
         main [path] w
         = Some (Return 0,
                 {| files := fs';
                    printed := printed w
                               ++ ["Pixelated image saved to: "
                                     +:+ default_output_path path] |}).
Proof.
  intros Hplain Hopen Hratio Hbound.
  pose proof (Image_open_valid _ _ _ Hopen) as Hv.
  assert (Hpos : 0 < im_width img /\ 0 < im_height img).
  { unfold valid_image in Hv.
    apply andb_prop in Hv as [Hv' _]. apply andb_prop in Hv' as [Hv' _].
    apply andb_prop in Hv' as [Hw Hh]. apply Z.ltb_lt in Hw, Hh. lia. }
  set (th := im_height img * 32 / im_width img).
  assert (Hth : 1 <= th) by (apply Z.div_le_lower_bound; lia).
  assert (Hres : resolve_dimensions (im_width img) (im_height img) None None
                 = Ok (32, th)).
  { cbn [resolve_dimensions]. now rewrite int_truediv_small by lia. }
  destruct (run_reaches_save path None None None 1 w img 32 th
              Hopen Hres ltac:(lia) ltac:(lia) ltac:(lia))
    as (small & final & _ & _ & _ & Hfinal & _ & Hrun).
  exists final. split.
  - pose proof (resize_size _ _ _ Hfinal) as Hsz.
    now rewrite !Z.mul_1_r in Hsz.
  - intros fs' Hsave.
    pose proof (main_parsed_after_run (args.mk path None None None 1) w) as Hm.
    cbn [args.input_path args.output args.width args.height
         args.pixels_per_pixel] in Hm.
    rewrite Hrun in Hm. unfold saved, resolved_output_path in Hm.
    rewrite Hsave in Hm. cbn [result_map result_bind files printed] in Hm.
    unfold main. rewrite (parse_args_single path Hplain).
    change (Some (main_parsed (Namespace (args.mk path None None None 1)) w)
            = Some (Return 0,
                    {| files := fs';
                       printed := printed w
                                  ++ ["Pixelated image saved to: "
                                        +:+ default_output_path path] |})).
    now rewrite Hm.
Qed.

End MainFacts.

Lemma main_reports_load_error_witness :
  @main_parsed MemCodec (Namespace (args.mk "nope.png" None None None 1))
    demo_world
  = (Return 1,
     @mkWorld MemCodec (@files MemCodec demo_world)
       (@printed MemCodec demo_world
        ++ ["Error: Could not open image " +:+ "nope.png" +:+ ": "
              +:+ str_exn (Exn "FileNotFoundError"
                             "[Errno 2] No such file or directory: 'nope.png'"
                             None)])).
Proof.
  apply (@main_reports_load_error MemCodec
           (args.mk "nope.png" None None None 1) demo_world).
  vm_compute. reflexivity.
Defined.

Lemma main_default_run_witness :
  exists pixelated_img,
    size pixelated_img = (32, 100 * 32 / 200)
    /\ forall fs',
         @Image_save MemCodec pixelated_img (default_output_path "red.png")
           (@files MemCodec demo_world) = (Ok (), fs') ->
         @main MemCodec ["red.png"] demo_world
         = Some (Return 0,
                 @mkWorld MemCodec fs'
                   (@printed MemCodec demo_world
                    ++ ["Pixelated image saved to: "
                          +:+ default_output_path "red.png"])).
Proof.
  apply (@main_default_run MemCodec "red.png" demo_world (solid 200 100 red)).
  - vm_compute. reflexivity.
  - vm_compute. reflexivity.
  - vm_compute. discriminate.
  - vm_compute. reflexivity.
Defined.

(** ** Pixelating twice *)

Section Idempotence.
Context `{Codec}.

Lemma valid_image_inv im :
  valid_image im = true ->
  0 < im_width im /\ 0 < im_height im
  /\ Z.of_nat (length (im_rows im)) = im_height im
  /\ forall row, row ∈ im_rows im -> Z.of_nat (length row) = im_width im.
Proof.
  unfold valid_image. intros Hv.
  apply andb_prop in Hv as [Hv Hrows]. apply andb_prop in Hv as [Hv Hlen].
  apply andb_prop in Hv as [Hw Hh].
  apply Z.ltb_lt in Hw, Hh. apply Z.eqb_eq in Hlen.
  repeat (split; [assumption |]).
  intros row Hin. rewrite forallb_forall in Hrows.
  apply Z.eqb_eq, Hrows, list_elem_of_In, Hin.
Qed.

(** Two valid images of one size that agree at every position are
    the same image. *)
Lemma image_ext a b :
  valid_image a = true -> valid_image b = true -> size a = size b ->
  (forall x y, 0 <= x < im_width a -> 0 <= y < im_height a ->
     pixel_at a x y = pixel_at b x y) ->
  a = b.
Proof.
  intros Ha Hb Hsz Hpix.
  destruct (valid_image_inv a Ha) as (Hwa & Hha & Hla & Hra).
  destruct (valid_image_inv b Hb) as (Hwb & Hhb & Hlb & Hrb).
  destruct a as [wa ha ra], b as [wb hb rb].
  cbn [im_width im_height im_rows] in *.
  injection Hsz as -> ->. f_equal.
  apply list_eq. intros i.
  destruct (decide (i < length ra)%nat) as [Hi | Hi].
  2: { rewrite !lookup_ge_None_2 by lia. reflexivity. }
  destruct (lookup_lt_is_Some_2 ra i Hi) as [rowa Hrowa].
  destruct (lookup_lt_is_Some_2 rb i ltac:(lia)) as [rowb Hrowb].
  rewrite Hrowa, Hrowb. f_equal.
  pose proof (Hra rowa (list_elem_of_lookup_2 _ _ _ Hrowa)) as Lena.
  pose proof (Hrb rowb (list_elem_of_lookup_2 _ _ _ Hrowb)) as Lenb.
  apply list_eq. intros j.
  destruct (decide (j < length rowa)%nat) as [Hj | Hj].
  2: { rewrite !lookup_ge_None_2 by lia. reflexivity. }
  specialize (Hpix (Z.of_nat j) (Z.of_nat i) ltac:(lia) ltac:(lia)).
  unfold pixel_at in Hpix. cbn [im_width im_height im_rows] in Hpix.
  destruct (Z.leb_spec 0 (Z.of_nat j)); [| lia].
  destruct (Z.ltb_spec (Z.of_nat j) wb); [| lia].
  destruct (Z.leb_spec 0 (Z.of_nat i)); [| lia].
  destruct (Z.ltb_spec (Z.of_nat i) hb); [| lia].
  cbn [andb] in Hpix. rewrite !Nat2Z.id, Hrowa, Hrowb in Hpix. exact Hpix.
Qed.

(** Enlarging by [k]: position [(x, y)] of the result shows cell
    [(x / k, y / k)]. *)
Lemma upscale_pixel small_img tw th k pixelated_img :
  valid_image small_img = true -> size small_img = (tw, th) ->
  resize small_img (tw * k, th * k) = Ok pixelated_img -> 0 < k ->
  forall x y, 0 <= x < tw * k -> 0 <= y < th * k ->
    pixel_at pixelated_img x y = pixel_at small_img (x / k) (y / k).
Proof.
  intros Hv Hsz Hfinal Hk x y Hx Hy.
  destruct (valid_image_inv _ Hv) as (Hw & Hh & _).
  injection Hsz as Hsw Hsh. rewrite Hsw in Hw. rewrite Hsh in Hh.
  destruct (resize_ok small_img (tw * k) (th * k) Hv ltac:(lia) ltac:(lia))
    as (final' & Hfinal' & _ & _ & Hpix).
  rewrite Hfinal in Hfinal'. injection Hfinal' as <-.
  rewrite (Hpix x y Hx Hy), Hsw, Hsh, !nearest_upscale by lia.
  symmetry. apply pixel_at_valid; [assumption | |].
  - rewrite Hsw. split; [apply Z.div_pos; lia |].
    apply Z.div_lt_upper_bound; lia.
  - rewrite Hsh. split; [apply Z.div_pos; lia |].
    apply Z.div_lt_upper_bound; lia.
Qed.

(** Shrinking an enlarged image back: cell [i] reads the middle of
    its own block. *)
Lemma nearest_downscale n k i :
  0 < n -> 0 < k -> 0 <= i -> nearest n (n * k) i / k = i.
Proof.
  intros Hn Hk Hi. unfold nearest.
  replace ((2 * i + 1) * (n * k)) with ((2 * i + 1) * k * n) by lia.
  rewrite Z.div_mul_cancel_r by lia.
  rewrite Z.div_div by lia.
  symmetry. apply Z.div_unique with (r := k); lia.
Qed.

(** X16: pixelating an output again with the same grid and scale
    reproduces it: if a run saved [pixelated_img] for the grid
    [(tw, th)] at scale [k], a run that opens [pixelated_img] with
    [width = tw], [height = th] and the same scale hands the very
    same image to the codec. *)
Theorem pixelate_twice_same_image k
    img tw th small_img pixelated_img input_path' output_path' w' :
  valid_image img = true ->
  resize img (tw, th) = Ok small_img ->
  resize small_img (tw * k, th * k) = Ok pixelated_img ->
  0 < k ->
  Image_open input_path' (files w') = Ok pixelated_img ->
  pixelate_image input_path' output_path' (Some tw) (Some th) k w'
  = saved pixelated_img (resolved_output_path input_path' output_path') w'.
Proof.
  intros Hv Hsmall Hfinal Hk Hopen.
  destruct (resize_Ok_positive _ _ _ _ Hv Hsmall) as [Htw Hth].
  pose proof (resize_Ok_valid _ _ _ Hv Hsmall) as Hvs.
  pose proof (resize_size _ _ _ Hsmall) as Hss.
  pose proof (resize_Ok_valid _ _ _ Hvs Hfinal) as Hvf.
  pose proof (resize_size _ _ _ Hfinal) as Hsf.
  destruct (resize_ok pixelated_img tw th Hvf Htw Hth)
    as (small2 & Hsmall2 & Hvs2 & Hss2 & Hpix2).
  destruct (resize_ok small2 (tw * k) (th * k) Hvs2 ltac:(lia) ltac:(lia))
    as (final2 & Hfinal2 & Hvf2 & Hsf2 & _).
  rewrite (run_opened _ _ _ _ _ _ _ Hopen). cbn [resolve_dimensions].
  rewrite Hsmall2, Hfinal2.
  replace final2 with pixelated_img; [reflexivity |].
  apply image_ext; [assumption | assumption | congruence |].
  injection Hsf as Hfw Hfh. rewrite Hfw, Hfh.
  intros x y Hx Hy.
  rewrite (upscale_pixel small2 tw th k final2 Hvs2 Hss2 Hfinal2 Hk x y Hx Hy).
  rewrite (upscale_pixel small_img tw th k pixelated_img Hvs Hss Hfinal Hk
             x y Hx Hy).
  assert (Bx : 0 <= x / k < tw)
    by (split; [apply Z.div_pos; lia | apply Z.div_lt_upper_bound; lia]).
  assert (By : 0 <= y / k < th)
    by (split; [apply Z.div_pos; lia | apply Z.div_lt_upper_bound; lia]).
  rewrite (Hpix2 _ _ Bx By), Hfw, Hfh.
  pose proof (nearest_bounds tw (tw * k) (x / k) Htw ltac:(lia) Bx) as Nx.
  pose proof (nearest_bounds th (th * k) (y / k) Hth ltac:(lia) By) as Ny.
  unfold sample.
  rewrite (upscale_pixel small_img tw th k pixelated_img Hvs Hss Hfinal Hk
             _ _ Nx Ny).
  rewrite !nearest_downscale by lia.
  injection Hss as Hsw Hsh.
  rewrite (pixel_at_valid small_img (x / k) (y / k) Hvs); [reflexivity | |];
    lia.
Qed.

(** X17: when the codec fails to write, [main] prints ["Error: "]
    followed by the codec's own message, returns 1, and leaves the
    files as the codec left them. *)
Theorem main_reports_save_error a w img tw th small_img pixelated_img cause fs' :
  Image_open (args.input_path a) (files w) = Ok img ->
  resolve_dimensions (im_width img) (im_height img) (args.width a)
    (args.height a) = Ok (tw, th) ->
  resize img (tw, th) = Ok small_img ->
  resize small_img (tw * args.pixels_per_pixel a, th * args.pixels_per_pixel a)
  = Ok pixelated_img ->
  Image_save pixelated_img
    (resolved_output_path (args.input_path a) (args.output a)) (files w)
  = (Raise cause, fs') ->
  main_parsed (Namespace a) w
  = (Return 1,
     {| files := fs'; printed := printed w ++ ["Error: " +:+ str_exn cause] |}).
Proof.
  intros Hopen Hres Hsmall Hfinal Hsave.
  pose proof (main_parsed_after_run a w) as Hrun.
  rewrite (run_opened _ _ _ _ _ _ _ Hopen), Hres, Hsmall, Hfinal in Hrun.
  unfold saved in Hrun. rewrite Hsave in Hrun. exact Hrun.
Qed.

End Idempotence.

Lemma pixelate_twice_same_image_witness :
  @pixelate_image MemCodec "red_pixelated.png" None (Some 4) (Some 2) 2
    (@mkWorld MemCodec {[ "red_pixelated.png" := solid 8 4 red ]} [])
  = @saved MemCodec (solid 8 4 red)
      (resolved_output_path "red_pixelated.png" None)
      (@mkWorld MemCodec {[ "red_pixelated.png" := solid 8 4 red ]} []).
Proof.
  apply (@pixelate_twice_same_image MemCodec 2
           (solid 200 100 red) 4 2 (solid 4 2 red) (solid 8 4 red));
    first [lia | vm_compute; reflexivity].
Defined.

Lemma main_reports_save_error_witness :
  @main_parsed MemCodec
    (Namespace (args.mk "red.png" (Some "out.xyz") (Some 4) None 2)) demo_world
  = (Return 1,
     @mkWorld MemCodec (@files MemCodec demo_world)
       (@printed MemCodec demo_world
        ++ ["Error: " +:+ str_exn (Exn "ValueError"
                                     "unknown file extension: .xyz" None)])).
Proof.
  apply (@main_reports_save_error MemCodec
           (args.mk "red.png" (Some "out.xyz") (Some 4) None 2) demo_world
           (solid 200 100 red) 4 2 (solid 4 2 red) (solid 8 4 red));
    vm_compute; reflexivity.
Defined.
